(** * Search orchestration of OpenSearch-VectorDB

    A shallow embedding of [src/app/services/search_service.py]
    (class [SearchService]) and the properties of its four search modes:
    [vector_search], [keyword_search], [hybrid_search_native] and
    [hybrid_search_reranked].

    - Python objects live in a heap addressed by locations; a result list is
      a list of locations, so that the in-place update
      [result.score = result.score / max_score] of [keyword_search] acts on
      objects, not on copies.
    - The collaborators ([embedding_model], [vector_store], [rerank_results])
      are external: they are the fields of a record, may raise, and every
      call is recorded in a call trace.
    - Scores are Python floats.  The arithmetic the service uses on them
      ([>] and [/]) is an interface with two instances: IEEE-754 binary64
      (the kernel's primitive floats) and exact rationals.
    - Console output ([print], [traceback.print_exc]) is not modelled. *)

From Stdlib Require Import ZArith QArith Qcanon Ascii.
From Stdlib Require Import Floats.
From stdpp Require Import numbers base strings list gmap pretty.

Local Open Scope Z_scope.
Set Warnings "-inexact-float,-clear-no-such-hyp".

(** ** Score arithmetic *)

(** The operations [SearchService] applies to a score: the comparison [>]
    (inside [max] and in the guard [max_score > 0]), the division [/], and
    the literal [0].  [s_one] is the value the specification calls 1.0. *)
Class ScoreOps (S : Type) := {
  s_zero : S;
  s_one : S;
  s_gt : S → S → bool;
  s_div : S → S → S
}.

(** [x ≤ y] as the code can observe it: [x > y] is false. *)
Definition s_le {S} `{ScoreOps S} (x y : S) : Prop := s_gt x y = false.

(** Division by a positive score never inverts an order, with [s_le]
    read as "not greater": the law of an exact arithmetic. *)
Class DivMonotone (S : Type) `{ScoreOps S} : Prop :=
  s_div_le : ∀ x y m,
    s_gt m s_zero = true → s_le x y → s_le (s_div x m) (s_div y m).

(** Laws of an ordered arithmetic with division, on the values that
    [finite] singles out.  Exact rationals satisfy them with every value
    finite.  For binary64, where a comparison with NaN is always false,
    the monotonicity of the division is derived on finite values from the
    specification of the primitive floats ([float_div_le_mono]). *)
Class OrderedDivision (S : Type) `{ScoreOps S} (finite : S → Prop) : Prop := {
  s_zero_finite : finite s_zero;
  s_gt_irrefl : ∀ x, s_gt x x = false;
  s_gt_trans : ∀ x y z, s_gt x y = true → s_gt y z = true → s_gt x z = true;
  s_le_trans : ∀ x y z,
    finite x → finite y → finite z → s_le x y → s_le y z → s_le x z;
  s_div_self : ∀ m, finite m → s_gt m s_zero = true → s_div m m = s_one;
  s_zero_div : ∀ m, s_gt m s_zero = true → s_div s_zero m = s_zero;
  s_div_monotone : DivMonotone S
}.

(** Division by a positive score keeps a strict order strict: exact
    arithmetic only. *)
Class DivStrict (S : Type) `{ScoreOps S} : Prop :=
  s_div_gt : ∀ x y m,
    s_gt m s_zero = true → s_gt x y = true →
    s_gt (s_div x m) (s_div y m) = true.

(** Python [float]: IEEE-754 binary64.  Python raises on a division by
    zero; the service divides only by a [max_score] with [max_score > 0]. *)
#[export] Instance float_ops : ScoreOps float := {|
  s_zero := 0%float;
  s_one := 1%float;
  s_gt := λ x y, PrimFloat.ltb y x;
  s_div := PrimFloat.div
|}.

(** Exact rationals in canonical form. *)
Definition Qc_gt (x y : Qc) : bool :=
  match (x ?= y)%Qc with Gt => true | _ => false end.

#[export] Instance Qc_ops : ScoreOps Qc := {|
  s_zero := 0%Qc;
  s_one := 1%Qc;
  s_gt := Qc_gt;
  s_div := Qcdiv
|}.

(** ** Data model *)

(** Modelled from the spec: the result and request models of
    [app/models/search_model.py], which [search_service.py] imports.  The
    service reads [doc.metadata.doc_id], [doc.metadata.chunk_index] and
    [doc.score]; the specification gives their types (string, integer,
    float) and an opaque payload. *)
Record Metadata := { doc_id : string; chunk_index : Z }.

Record SearchResult (S : Type) := {
  metadata : Metadata;
  score : S;
  payload : string
}.
Arguments metadata {S} _.
Arguments score {S} _.
Arguments payload {S} _.

Record SearchRequest := { query : string; top_k : Z }.

(** Object references. *)
Definition loc := nat.

Record SearchResponse := { results : list loc }.

(** The candidate identity key of the specification. *)
Definition identity {S} (r : SearchResult S) : string * Z :=
  (doc_id (metadata r), chunk_index (metadata r)).

(** [result.score = v] *)
Definition with_score {S} (r : SearchResult S) (v : S) : SearchResult S :=
  {| metadata := metadata r; score := v; payload := payload r |}.

(** ** Heap, outcomes and the call trace *)

Definition Heap (S : Type) := loc → SearchResult S.

Definition heap_set {S} (h : Heap S) (l : loc) (r : SearchResult S) : Heap S :=
  λ l', if decide (l' = l) then r else h l'.

Inductive Outcome (exn A : Type) :=
  | Return (a : A)
  | Raise (e : exn).
Arguments Return {exn A} _.
Arguments Raise {exn A} _.

(** A collaborator call with its arguments. *)
Inductive Call (S : Type) :=
  | EmbedQuery (query : string)
  | SimilaritySearch (query_vec : list S) (index_name : string) (k : Z)
  | Bm25Search (query : string) (index_name : string) (k : Z)
  | HybridSearchWithPipeline (query_text : string) (query_vector : list S)
      (index_name pipeline_name : string) (k : Z)
  | RerankResults (query : string) (docs : list loc) (top_k : Z).
Arguments EmbedQuery {S} _.
Arguments SimilaritySearch {S} _ _ _.
Arguments Bm25Search {S} _ _ _.
Arguments HybridSearchWithPipeline {S} _ _ _ _ _.
Arguments RerankResults {S} _ _ _.

Record World (S : Type) := {
  heap : Heap S;
  calls : list (Call S)
}.
Arguments heap {S} _.
Arguments calls {S} _.

(** Computations of the service: state passing over the world, with
    exceptions. *)
Definition M (S exn A : Type) := World S → Outcome exn A * World S.

Definition ret {S exn A} (a : A) : M S exn A := λ w, (Return a, w).

Definition raise {S exn A} (e : exn) : M S exn A := λ w, (Raise e, w).

Definition bind {S exn A B} (m : M S exn A) (k : A → M S exn B) : M S exn B :=
  λ w, match m w with
       | (Return a, w') => k a w'
       | (Raise e, w') => (Raise e, w')
       end.

(** [try: body except Exception as e: handler(e)] *)
Definition try_except {S exn A} (body : M S exn A) (handler : exn → M S exn A)
    : M S exn A :=
  λ w, match body w with
       | (Return a, w') => (Return a, w')
       | (Raise e, w') => handler e w'
       end.

Notation "'let!' x ':=' m 'in' k" := (bind m (λ x, k))
  (at level 10, x name, m at level 100, k at level 200, only parsing).

Definition get_heap {S exn} : M S exn (Heap S) := λ w, (Return (heap w), w).

(** [result.score = v] on the object at [l]. *)
Definition set_score {S exn} (l : loc) (v : S) : M S exn unit :=
  λ w, (Return tt,
        {| heap := heap_set (heap w) l (with_score (heap w l) v);
           calls := calls w |}).

(** [for x in xs: body(x)] *)
Fixpoint for_each {S exn A} (xs : list A) (body : A → M S exn unit)
    : M S exn unit :=
  match xs with
  | [] => ret tt
  | x :: xs' => let! _ := body x in for_each xs' body
  end.

(** Calling a collaborator: the call is recorded, then the collaborator
    runs on the heap. *)
Definition call {S exn A} (ev : Call S)
    (f : Heap S → Outcome exn A * Heap S) : M S exn A :=
  λ w, let '(r, h') := f (heap w) in
       (r, {| heap := h'; calls := calls w ++ [ev] |}).

(** The external collaborators imported by [search_service.py]. *)
Record Collaborators (S exn : Type) := {
  embed_query : string → Heap S → Outcome exn (list S) * Heap S;
  similarity_search :
    list S → string → Z → Heap S → Outcome exn (list loc) * Heap S;
  bm25_search :
    string → string → Z → Heap S → Outcome exn (list loc) * Heap S;
  hybrid_search_with_pipeline :
    string → list S → string → string → Z →
    Heap S → Outcome exn (list loc) * Heap S;
  rerank_results :
    string → list loc → Z → Heap S → Outcome exn (list loc) * Heap S
}.
Arguments embed_query {S exn} _.
Arguments similarity_search {S exn} _.
Arguments bm25_search {S exn} _.
Arguments hybrid_search_with_pipeline {S exn} _.
Arguments rerank_results {S exn} _.

(** ** Pure parts of the service *)

(** Python's [max] over a non-empty sequence [x0, xs...]: the running
    maximum is replaced only by an item that compares [>] to it. *)
Fixpoint py_max {S} `{ScoreOps S} (x0 : S) (xs : list S) : S :=
  match xs with
  | [] => x0
  | x :: xs' => py_max (if s_gt x x0 then x else x0) xs'
  end.

(** [f"{doc.metadata.doc_id}_{doc.metadata.chunk_index}"] *)
Definition doc_key {S} (doc : SearchResult S) : string :=
  doc_id (metadata doc) +:+ "_" +:+ pretty (chunk_index (metadata doc)).

(** One of the two deduplicating loops of [hybrid_search_reranked], on the
    state [(combined_docs, doc_ids_chunks)]. *)
Fixpoint dedup_loop {S} (h : Heap S) (docs : list loc)
    (st : list loc * gset string) : list loc * gset string :=
  match docs with
  | [] => st
  | doc :: docs' =>
      let key := doc_key (h doc) in
      if decide (key ∈ st.2) then dedup_loop h docs' st
      else dedup_loop h docs' (st.1 ++ [doc], st.2 ∪ {[key]})
  end.

(** Steps 3.1 and 3.2: vector results first, then BM25 results. *)
Definition combine_docs {S} (h : Heap S) (vector_results bm25_results : list loc)
    : list loc :=
  (dedup_loop h bm25_results (dedup_loop h vector_results ([], ∅))).1.

Definition expanded_k (top_k : Z) : Z := Z.max (top_k * 3) 30.

Definition _to_response (results : list loc) : SearchResponse :=
  {| results := results |}.

(** ** The four search modes *)

Section SearchService.
Context {S : Type} `{ScoreOps S} {exn : Type}.
(** [MASTER_INDEX] comes from [app.config.opensearch_config]. *)
Variable MASTER_INDEX : string.
Variable C : Collaborators S exn.

Definition vector_search (request : SearchRequest) : M S exn SearchResponse :=
  let! query_vec := call (EmbedQuery (query request))
                         (embed_query C (query request)) in
  let! results :=
    call (SimilaritySearch query_vec MASTER_INDEX (top_k request))
         (similarity_search C query_vec MASTER_INDEX (top_k request)) in
  ret (_to_response results).

(** The normalisation of [keyword_search]:
    [if results: max_score = max(...); if max_score > 0: for ...]. *)
Definition normalize_scores (results : list loc) : M S exn unit :=
  let! h := get_heap in
  match (λ result, score (h result)) <$> results with
  | [] => ret tt
  | s0 :: rest =>
      let max_score := py_max s0 rest in
      if s_gt max_score s_zero then
        for_each results (λ result,
          let! h' := get_heap in
          set_score result (s_div (score (h' result)) max_score))
      else ret tt
  end.

Definition keyword_search (request : SearchRequest) : M S exn SearchResponse :=
  let! results :=
    call (Bm25Search (query request) MASTER_INDEX (top_k request))
         (bm25_search C (query request) MASTER_INDEX (top_k request)) in
  let! _ := normalize_scores results in
  ret (_to_response results).

Definition hybrid_search_native (request : SearchRequest)
    : M S exn SearchResponse :=
  try_except
    (let! query_vec := call (EmbedQuery (query request))
                            (embed_query C (query request)) in
     let! results :=
       call (HybridSearchWithPipeline (query request) query_vec MASTER_INDEX
               "hybrid-search-pipeline" (top_k request))
            (hybrid_search_with_pipeline C (query request) query_vec
               MASTER_INDEX "hybrid-search-pipeline" (top_k request)) in
     ret (_to_response results))
    (λ e, raise e).

Definition hybrid_search_reranked (request : SearchRequest)
    : M S exn SearchResponse :=
  try_except
    (let expanded_k := expanded_k (top_k request) in
     let! query_vec := call (EmbedQuery (query request))
                            (embed_query C (query request)) in
     let! vector_results :=
       call (SimilaritySearch query_vec MASTER_INDEX expanded_k)
            (similarity_search C query_vec MASTER_INDEX expanded_k) in
     let! bm25_results :=
       call (Bm25Search (query request) MASTER_INDEX expanded_k)
            (bm25_search C (query request) MASTER_INDEX expanded_k) in
     let! h := get_heap in
     let combined_docs := combine_docs h vector_results bm25_results in
     match combined_docs with
     | [] => ret (_to_response [])
     | _ :: _ =>
         let! reranked_docs :=
           call (RerankResults (query request) combined_docs (top_k request))
                (rerank_results C (query request) combined_docs
                   (top_k request)) in
         ret (_to_response reranked_docs)
     end)
    (λ e, raise e).
End SearchService.

(** ** The merge in the words of the specification *)

(** Walk [docs] in order and keep an item only if its key is not among the
    keys [seen] so far. *)
Fixpoint first_seen {K} `{EqDecision K} (key : loc → K) (seen : list K)
    (docs : list loc) : list loc :=
  match docs with
  | [] => []
  | doc :: docs' =>
      if decide (key doc ∈ seen) then first_seen key seen docs'
      else doc :: first_seen key (key doc :: seen) docs'
  end.

(** Vector results first, then BM25 results, keyed by
    [(doc_id, chunk_index)]. *)
Definition merge_spec {S} (h : Heap S) (vector_results bm25_results : list loc)
    : list loc :=
  first_seen (λ doc, identity (h doc)) [] (vector_results ++ bm25_results).

(** ** Observations on a response *)

Definition scores_of {S} (h : Heap S) (docs : list loc) : list S :=
  (λ doc, score (h doc)) <$> docs.

Definition identities_of {S} (h : Heap S) (docs : list loc) : list (string * Z) :=
  (λ doc, identity (h doc)) <$> docs.

(** [max([result.score for result in results])], when [results] is not
    empty. *)
Definition max_score_of {S} `{ScoreOps S} (h : Heap S) (docs : list loc)
    : option S :=
  match scores_of h docs with
  | [] => None
  | s0 :: rest => Some (py_max s0 rest)
  end.

(** [result.score / max_score], as an object. *)
Definition divided {S} `{ScoreOps S} (max_score : S) (r : SearchResult S)
    : SearchResult S :=
  with_score r (s_div (score r) max_score).

(** No two items share the same [(doc_id, chunk_index)]. *)
Definition unique_identities {S} (h : Heap S) (docs : list loc) : Prop :=
  NoDup (identities_of h docs).

(** ** Request validation *)

Inductive Mode := VectorMode | KeywordMode | NativeHybridMode | RerankedHybridMode.

Inductive Rejected := ClientInputError.

(** Modelled from the spec: the validation of a request, done by the
    request model ([app/models/search_model.py]) and the layer that builds
    a [SearchRequest] before it calls [SearchService]; [search_service.py]
    has no check of its own.  Specification, sections 3 and 7: the query is
    non-empty and [top_k] is a positive integer; a request of another shape
    is rejected before any collaborator call, as a client-input error. *)
Definition valid_shape (request : SearchRequest) : bool :=
  negb (String.eqb (query request) "") && (0 <? top_k request).

Definition run_mode {S} `{ScoreOps S} {exn} (MASTER_INDEX : string)
    (C : Collaborators S exn) (mode : Mode) (request : SearchRequest)
    : M S exn SearchResponse :=
  match mode with
  | VectorMode => vector_search MASTER_INDEX C request
  | KeywordMode => keyword_search MASTER_INDEX C request
  | NativeHybridMode => hybrid_search_native MASTER_INDEX C request
  | RerankedHybridMode => hybrid_search_reranked MASTER_INDEX C request
  end.

(** Modelled from the spec: validation, then the selected mode of the
    service. *)
Definition handle_search {S} `{ScoreOps S} {exn} (MASTER_INDEX : string)
    (C : Collaborators S exn) (mode : Mode) (request : SearchRequest)
    (w : World S) : (Rejected + Outcome exn SearchResponse) * World S :=
  if valid_shape request then
    let '(r, w') := run_mode MASTER_INDEX C mode request w in (inr r, w')
  else (inl ClientInputError, w).

(** What the service relies on for a response without duplicates: the
    vector store's answer to the mode's search has no two items with the
    same identity; in reranked-hybrid mode, the reranker answers with a
    selection of its candidates (an identity occurs in its answer at most
    as often as among the candidates). *)
Definition duplicate_free_source {S exn} (mode : Mode) (C : Collaborators S exn)
    : Prop :=
  match mode with
  | VectorMode =>
      ∀ query_vec index_name k h docs h',
        similarity_search C query_vec index_name k h = (Return docs, h') →
        unique_identities h' docs
  | KeywordMode =>
      ∀ query index_name k h docs h',
        bm25_search C query index_name k h = (Return docs, h') →
        unique_identities h' docs
  | NativeHybridMode =>
      ∀ query_text query_vec index_name pipeline_name k h docs h',
        hybrid_search_with_pipeline C query_text query_vec index_name
          pipeline_name k h = (Return docs, h') →
        unique_identities h' docs
  | RerankedHybridMode =>
      ∀ query docs k h reranked_docs h',
        rerank_results C query docs k h = (Return reranked_docs, h') →
        identities_of h' reranked_docs ⊆+ identities_of h docs
  end.

(** ** Concrete collaborators and heaps *)

Definition mk_result {S} (d : string) (c : Z) (s : S) : SearchResult S :=
  {| metadata := {| doc_id := d; chunk_index := c |}; score := s; payload := d |}.

(** The heap that holds [objs] at locations 0, 1, ... *)
Definition heap_of {S} (objs : list (SearchResult S)) (s0 : S) : Heap S :=
  λ l, nth l objs (mk_result "" 0 s0).

(** Collaborators with fixed answers; the reranker keeps the first [top_k]
    candidates. *)
Definition fixed {S} (query_vec : list S) (vector_results bm25_results : list loc)
    (hybrid : Outcome string (list loc)) : Collaborators S string := {|
  embed_query := λ _ h, (Return query_vec, h);
  similarity_search := λ _ _ _ h, (Return vector_results, h);
  bm25_search := λ _ _ _ h, (Return bm25_results, h);
  hybrid_search_with_pipeline := λ _ _ _ _ _ h, (hybrid, h);
  rerank_results := λ _ docs k h, (Return (take (Z.to_nat k) docs), h)
|}.

Definition world_of {S} (h : Heap S) : World S := {| heap := h; calls := [] |}.

(** The scenario of the specification: vector search returns
    [(d1,0,0.9), (d2,0,0.8)], BM25 returns [(d1,0,12.0), (d3,0,9.0)]. *)
Definition alpha_heap : Heap float :=
  heap_of [mk_result "d1" 0 0.9%float; mk_result "d2" 0 0.8%float;
           mk_result "d1" 0 12%float; mk_result "d3" 0 9%float] 0%float.

Definition alpha_request : SearchRequest := {| query := "alpha"; top_k := 3 |}.

Definition alpha_collaborators : Collaborators float string :=
  fixed [0.5%float] [0; 1]%nat [2; 3]%nat (Return []).

(** Both searches find nothing. *)
Definition empty_collaborators : Collaborators float string :=
  fixed [0.5%float] [] [] (Return []).

(** The hybrid-search pipeline of the vector store fails. *)
Definition failing_collaborators : Collaborators float string :=
  fixed [0.5%float] [] [] (Raise "ConnectionError").

(** BM25 answers for keyword mode: locations 0, 1, ... of a heap. *)
Definition bm25_only {S} (bm25_results : list loc) : Collaborators S string :=
  fixed [] [] bm25_results (Return []).

Definition keyword_request : SearchRequest := {| query := "alpha"; top_k := 3 |}.

(** A positive and a negative raw score. *)
Definition mixed_sign_heap : Heap float :=
  heap_of [mk_result "d1" 0 12%float; mk_result "d2" 0 (-3)%float] 0%float.

(** Two raw scores next to each other in binary64, below the maximum. *)
Definition rounding_heap : Heap float :=
  heap_of [mk_result "d1" 0 3%float;
           mk_result "d2" 0 1.5000000000000004%float;
           mk_result "d3" 0 1.5000000000000002%float] 0%float.

(** No positive raw score. *)
Definition nonpositive_heap : Heap float :=
  heap_of [mk_result "d1" 0 0%float; mk_result "d2" 0 (-1.5)%float] 0%float.

(** The keyword scenario of the specification, raw scores 12, 6 and 0, in
    exact arithmetic. *)
Definition exact_heap : Heap Qc :=
  heap_of [mk_result "d1" 0 (Q2Qc 12); mk_result "d2" 0 (Q2Qc 6);
           mk_result "d3" 0 (Q2Qc 0)] (Q2Qc 0).

(** The same scenario in binary64. *)
Definition keyword_heap : Heap float :=
  heap_of [mk_result "d1" 0 12%float; mk_result "d2" 0 6%float;
           mk_result "d3" 0 0%float] 0%float.

(** Two objects with the same [(doc_id, chunk_index)] in one answer of the
    vector store. *)
Definition duplicate_collaborators : Collaborators float string :=
  fixed [0.5%float] [0; 2]%nat [0; 2]%nat (Return [0; 2]%nat).

(** A collaborator that leaves the heap as it found it. *)
Definition heap_preserving {S exn} (C : Collaborators S exn) : Prop :=
  (∀ query h, (embed_query C query h).2 = h)
  ∧ (∀ query_vec index_name k h,
       (similarity_search C query_vec index_name k h).2 = h)
  ∧ (∀ query index_name k h, (bm25_search C query index_name k h).2 = h)
  ∧ (∀ query_text query_vec index_name pipeline_name k h,
       (hybrid_search_with_pipeline C query_text query_vec index_name
          pipeline_name k h).2 = h)
  ∧ (∀ query docs k h, (rerank_results C query docs k h).2 = h).

(** The embedding model is down. *)
Definition no_embedding : Collaborators float string := {|
  embed_query := λ _ h, (Raise "EmbeddingError", h);
  similarity_search := λ _ _ _ h, (Return [0; 1]%nat, h);
  bm25_search := λ _ _ _ h, (Return [2; 3]%nat, h);
  hybrid_search_with_pipeline := λ _ _ _ _ _ h, (Return [0; 3]%nat, h);
  rerank_results := λ _ docs k h, (Return (take (Z.to_nat k) docs), h)
|}.

(** The BM25 search fails after a successful vector search. *)
Definition no_bm25 : Collaborators float string := {|
  embed_query := λ _ h, (Return [0.5%float], h);
  similarity_search := λ _ _ _ h, (Return [0; 1]%nat, h);
  bm25_search := λ _ _ _ h, (Raise "SearchError", h);
  hybrid_search_with_pipeline := λ _ _ _ _ _ h, (Return [0; 3]%nat, h);
  rerank_results := λ _ docs k h, (Return (take (Z.to_nat k) docs), h)
|}.

(** ** The upload router ([src/app/routers/document_router.py]) *)

(** The classes of exceptions the handlers of the router tell apart:
    [ValueError] and its subclasses, the other subclasses of [Exception],
    and a [BaseException] that is no [Exception], which no handler
    catches.  [exc_str] is [str(e)]. *)
Inductive ExcClass := IsValueError | IsException | IsBaseException.

Record PyExc := { exc_class : ExcClass; exc_str : string }.

(** What leaves an endpoint as an exception: an [HTTPException] raised by
    a handler, or an exception that no handler caught. *)
Inductive RouterExc :=
  | HTTPException (status_code : Z) (detail : string)
  | Uncaught (e : PyExc).

(** [try: ... except ValueError as ve: raise HTTPException(400, str(ve))
    except Exception as e: raise HTTPException(500, str(e))], the body of
    both endpoints. *)
Definition handle_upload_errors {R} (result : Outcome PyExc R)
    : Outcome RouterExc R :=
  match result with
  | Return r => Return r
  | Raise e =>
      match exc_class e with
      | IsValueError => Raise (HTTPException 400 (exc_str e))
      | IsException => Raise (HTTPException 500 (exc_str e))
      | IsBaseException => Raise (Uncaught e)
      end
  end.

Section DocumentRouter.
(** [UploadFile], [UploadResponse] and [MultiUploadResponse], and the two
    methods of [DocumentService] the router calls. *)
Context {UploadFile UploadResponse MultiUploadResponse : Type}.
Variable process_upload : UploadFile → string → Outcome PyExc UploadResponse.
Variable process_multiple_uploads :
  list UploadFile → string → Outcome PyExc MultiUploadResponse.

Definition upload_document (index_name : string) (file : UploadFile)
    : Outcome RouterExc UploadResponse :=
  handle_upload_errors (process_upload file index_name).

Definition upload_multiple_documents (index_name : string)
    (files : list UploadFile) : Outcome RouterExc MultiUploadResponse :=
  handle_upload_errors (process_multiple_uploads files index_name).
End DocumentRouter.

(** A document service that rejects an empty file name with a
    [ValueError], fails on the index "down" with another exception and
    otherwise answers with the file name. *)
Definition sample_process_upload (file index_name : string)
    : Outcome PyExc string :=
  if String.eqb file "" then
    Raise {| exc_class := IsValueError; exc_str := "empty file name" |}
  else if String.eqb index_name "down" then
    Raise {| exc_class := IsException; exc_str := "index unavailable" |}
  else Return file.

(** ** Auxiliary definitions for the binary64 division

    [PrimFloat.div] is specified by [SFdiv] of the kernel's [SpecFloat]:
    an integer division of the mantissas, then [binary_round_aux] shifts
    the quotient and rounds it to nearest, ties to even.  The following
    definitions describe the intermediate values of that computation for a
    quotient [A / B * 2 ^ e]. *)

(** The shift record of the quotient [A / B]: its integer part, whether the
    fractional part is at least one half (round bit), and whether it is
    neither zero nor one half (sticky bit). *)
Definition shr_rec (A B : Z) : shr_record :=
  {| shr_m := A / B;
     shr_r := B <=? 2 * (A mod B);
     shr_s := negb (A mod B =? 0) && negb (2 * (A mod B) =? B) |}.

(** [A / B] rounded to the nearest integer, ties to even. *)
Definition rne (A B : Z) : Z :=
  round_nearest_even (shr_m (shr_rec A B)) (loc_of_shr_record (shr_rec A B)).

(** Mantissa and exponent that [binary_round_aux] computes for
    [A / B * 2 ^ e]. *)
Definition round_div (prec emax A B e : Z) : Z * Z :=
  let n := Z.max 0 (fexp prec emax (Zdigits2 (A / B) + e) - e) in
  let M := rne A (2 ^ n * B) in
  let E := e + n in
  let n2 := Z.max 0 (fexp prec emax (Zdigits2 M + E) - E) in
  (M / 2 ^ n2, E + n2).

(** The float [binary_round_aux] builds from a mantissa and an exponent. *)
Definition pack (prec emax : Z) (sx : bool) (ME : Z * Z) : spec_float :=
  match ME.1 with
  | 0 => S754_zero sx
  | Zpos m =>
    if ME.2 <=? emax - prec then S754_finite sx m ME.2 else S754_infinity sx
  | Zneg _ => S754_nan
  end.

(** The order of two (mantissa, exponent) pairs as [SFcompare] sees it. *)
Definition pair_le (p1 p2 : Z * Z) : Prop :=
  p1.1 = 0 ∨ 0 < p2.1 ∧ (p1.2 < p2.2 ∨ p1.2 = p2.2 ∧ p1.1 ≤ p2.1).

(** Zeros and finite numbers: neither NaN nor an infinity. *)
Definition SFfinite (x : spec_float) : bool :=
  match x with
  | S754_zero _ | S754_finite _ _ _ => true
  | _ => false
  end.

(** [occurs c s]: the character [c] occurs in the string [s]. *)
Fixpoint occurs (c : Ascii.ascii) (s : string) : Prop :=
  match s with
  | EmptyString => False
  | String a s' => a = c ∨ occurs c s'
  end.

(** * Properties *)

(** ** The deduplication key *)

Lemma pretty_N_go_no_underscore (x : N) (s : string) :
  ¬ occurs "_"%char s → ¬ occurs "_"%char (pretty_N_go x s).
Proof.
  revert s. induction (N.lt_wf_0 x) as [x _ IH]; intros s Hs.
  destruct (decide (x = 0)%N) as [->|Hx].
  - by rewrite pretty_N_go_0.
  - rewrite pretty_N_go_step by lia.
    apply IH; [apply N.div_lt; lia|].
    simpl. intros [Hc|Hc]; [|done].
    revert Hc. unfold pretty_N_char. by repeat case_match.
Qed.

Lemma pretty_Z_no_underscore (z : Z) : ¬ occurs "_"%char (pretty z).
Proof.
  assert (∀ p : positive, ¬ occurs "_"%char (pretty p)) as Hpos.
  { intros p. unfold pretty, pretty_positive, pretty, pretty_N.
    case_decide; [done|]. apply pretty_N_go_no_underscore. simpl. tauto. }
  destruct z as [|p|p]; unfold pretty, pretty_Z.
  - simpl. intros [?|[]]. done.
  - apply Hpos.
  - simpl. intros [?|?]; [done|]. by eapply Hpos.
Qed.

Lemma append_nil_l (s : string) : "" +:+ s = s.
Proof. reflexivity. Qed.

Lemma append_cons (a : Ascii.ascii) (d s : string) :
  String a d +:+ s = String a (d +:+ s).
Proof. reflexivity. Qed.

Lemma occurs_app_r (c : Ascii.ascii) (d s : string) :
  occurs c s → occurs c (d +:+ s).
Proof. induction d as [|a d IH]; [done|]. intros Hs. right. by apply IH. Qed.

(** A string without ["_"] after the separator fixes the separator's place. *)
Lemma separator_unique (d1 d2 s1 s2 : string) :
  ¬ occurs "_"%char s1 → ¬ occurs "_"%char s2 →
  d1 +:+ "_" +:+ s1 = d2 +:+ "_" +:+ s2 → d1 = d2 ∧ s1 = s2.
Proof.
  intros H1 H2. revert d2.
  induction d1 as [|a d1 IH]; intros [|b d2] Heq;
    rewrite ?append_cons, ?append_nil_l in Heq.
  - by simplify_eq.
  - exfalso. injection Heq as <- ->. apply H1, occurs_app_r. by left.
  - exfalso. injection Heq as -> <-. apply H2, occurs_app_r. by left.
  - injection Heq as -> Heq. destruct (IH _ Heq) as [-> ->]. done.
Qed.

(** The string key of the code identifies exactly the pair
    [(doc_id, chunk_index)]. *)
Lemma doc_key_identity {S} (r1 r2 : SearchResult S) :
  doc_key r1 = doc_key r2 ↔ identity r1 = identity r2.
Proof.
  unfold doc_key, identity. split.
  - intros Heq. apply separator_unique in Heq as [Hd Hc];
      [|apply pretty_Z_no_underscore..].
    apply (inj pretty) in Hc. by rewrite Hd, Hc.
  - intros [= -> ->]. done.
Qed.

(** ** Merging with deduplication *)

Section FirstSeen.
Context {K : Type} `{EqDecision K} (key : loc → K).

Lemma first_seen_ext (seen1 seen2 : list K) (docs : list loc) :
  (∀ k, k ∈ seen1 ↔ k ∈ seen2) →
  first_seen key seen1 docs = first_seen key seen2 docs.
Proof.
  revert seen1 seen2.
  induction docs as [|doc docs IH]; intros seen1 seen2 Hseen; simpl; [done|].
  destruct (decide (key doc ∈ seen1)) as [Hin|Hin];
    destruct (decide (key doc ∈ seen2)) as [Hin'|Hin'];
    try (exfalso; naive_solver).
  - by apply IH.
  - f_equal. apply IH. intros k. rewrite !elem_of_cons. naive_solver.
Qed.

Lemma first_seen_app (seen : list K) (xs ys : list loc) :
  first_seen key seen (xs ++ ys) =
  first_seen key seen xs ++ first_seen key ((key <$> xs) ++ seen) ys.
Proof.
  revert seen. induction xs as [|x xs IH]; intros seen; simpl; [done|].
  destruct (decide (key x ∈ seen)) as [Hin|Hin].
  - rewrite IH. f_equal. apply first_seen_ext. intros k.
    rewrite ?elem_of_cons, ?elem_of_app. naive_solver.
  - simpl. f_equal. rewrite IH. f_equal. apply first_seen_ext. intros k.
    rewrite ?elem_of_cons, ?elem_of_app, ?elem_of_cons. naive_solver.
Qed.

Lemma first_seen_elem_of (seen : list K) (docs : list loc) (d : loc) :
  d ∈ first_seen key seen docs → d ∈ docs ∧ key d ∉ seen.
Proof.
  revert seen. induction docs as [|doc docs IH]; intros seen; simpl.
  - by rewrite elem_of_nil.
  - destruct (decide (key doc ∈ seen)) as [Hin|Hin].
    + intros Hd. apply IH in Hd as [? ?]. split; [by right|done].
    + rewrite elem_of_cons. intros [->|Hd]; [split; [by left|done]|].
      apply IH in Hd as [? Hk]. split; [by right|].
      intros ?. apply Hk. by right.
Qed.

(** No key is kept twice. *)
Lemma first_seen_NoDup (seen : list K) (docs : list loc) :
  NoDup (key <$> first_seen key seen docs).
Proof.
  revert seen. induction docs as [|doc docs IH]; intros seen; simpl.
  - constructor.
  - destruct (decide (key doc ∈ seen)) as [Hin|Hin]; [apply IH|].
    rewrite fmap_cons. constructor; [|apply IH].
    rewrite list_elem_of_fmap. intros (d & Hk & Hd).
    apply first_seen_elem_of in Hd as [_ Hd]. apply Hd. rewrite <-Hk. by left.
Qed.

End FirstSeen.

(** One loop of the code, read through the identity pairs: it appends the
    first-seen items and records every key it met. *)
Lemma dedup_loop_first_seen {S} (h : Heap S) (docs acc : list loc)
    (seen : gset string) (seenK : list (string * Z)) :
  (∀ r : SearchResult S, doc_key r ∈ seen ↔ identity r ∈ seenK) →
  (dedup_loop h docs (acc, seen)).1
    = acc ++ first_seen (λ d, identity (h d)) seenK docs
  ∧ ∀ r : SearchResult S,
      doc_key r ∈ (dedup_loop h docs (acc, seen)).2
      ↔ identity r ∈ identities_of h docs ++ seenK.
Proof.
  revert acc seen seenK.
  induction docs as [|doc docs IH]; intros acc seen seenK Hseen.
  - simpl. by rewrite app_nil_r.
  - cbn [dedup_loop first_seen fst snd].
    destruct (decide (doc_key (h doc) ∈ seen)) as [Hin|Hin].
    + rewrite decide_True by (by apply Hseen).
      destruct (IH acc seen seenK Hseen) as [-> Hseen']. split; [done|].
      intros r. rewrite Hseen'. unfold identities_of.
      rewrite fmap_cons, !elem_of_app, elem_of_cons.
      apply Hseen in Hin. split; [tauto|]. intros [[->|?]|?]; tauto.
    + rewrite decide_False by (by rewrite <-Hseen).
      destruct (IH (acc ++ [doc]) (seen ∪ {[doc_key (h doc)]})
                  (identity (h doc) :: seenK)) as [-> Hseen'].
      { intros r. rewrite elem_of_union, elem_of_singleton, elem_of_cons.
        rewrite Hseen, doc_key_identity. tauto. }
      split; [by rewrite <-app_assoc|].
      intros r. rewrite Hseen'. unfold identities_of.
      rewrite fmap_cons, !elem_of_app, !elem_of_cons. tauto.
Qed.

(** The code's merge is the merge the specification describes. *)
Lemma combine_docs_merge_spec {S} (h : Heap S) (vector_results bm25_results : list loc) :
  combine_docs h vector_results bm25_results
  = merge_spec h vector_results bm25_results.
Proof.
  unfold combine_docs, merge_spec.
  destruct (dedup_loop_first_seen h vector_results [] ∅ [])
    as [Hacc Hseen]; [set_solver|].
  destruct (dedup_loop h vector_results ([], ∅)) as [acc seen]; simpl in *.
  destruct (dedup_loop_first_seen h bm25_results acc seen
              (identities_of h vector_results ++ [])) as [-> _]; [done|].
  by rewrite Hacc, first_seen_app.
Qed.

Lemma combine_docs_unique {S} (h : Heap S) (vector_results bm25_results : list loc) :
  unique_identities h (combine_docs h vector_results bm25_results).
Proof.
  rewrite combine_docs_merge_spec. apply first_seen_NoDup.
Qed.

Lemma combine_docs_elem_of {S} (h : Heap S) (vs bs : list loc) (d : loc) :
  d ∈ combine_docs h vs bs → d ∈ vs ∨ d ∈ bs.
Proof.
  rewrite combine_docs_merge_spec. intros Hd.
  apply first_seen_elem_of in Hd as [Hd _]. by apply elem_of_app.
Qed.


(** ** Call traces of the hybrid modes *)

Section Traces.
Context {S : Type} `{ScoreOps S} {exn : Type}.
Variable MASTER_INDEX : string.
Variable C : Collaborators S exn.

(** Unfolds a mode of the service down to the collaborator calls. *)
Ltac run :=
  unfold hybrid_search_reranked, hybrid_search_native, vector_search,
    keyword_search, try_except, bind, call, ret, raise, get_heap; simpl.

(** C3. In reranked-hybrid mode, if the vector search and the BM25 search
    both return an empty list, the operation returns a response with no
    results, does not call the reranker and raises no error. *)
Theorem reranked_empty_short_circuit (request : SearchRequest) (w : World S)
    (query_vec : list S) (h1 h2 h3 : Heap S) :
  embed_query C (query request) (heap w) = (Return query_vec, h1) →
  similarity_search C query_vec MASTER_INDEX (expanded_k (top_k request)) h1
    = (Return [], h2) →
  bm25_search C (query request) MASTER_INDEX (expanded_k (top_k request)) h2
    = (Return [], h3) →
  hybrid_search_reranked MASTER_INDEX C request w
  = (Return {| results := [] |},
     {| heap := h3;
        calls := calls w ++
          [EmbedQuery (query request);
           SimilaritySearch query_vec MASTER_INDEX (expanded_k (top_k request));
           Bm25Search (query request) MASTER_INDEX
             (expanded_k (top_k request))] |}).
Proof.
  intros Hembed Hsim Hbm25. run.
  rewrite Hembed; simpl. rewrite Hsim; simpl. rewrite Hbm25; simpl.
  by rewrite <-!app_assoc.
Qed.

(** C7. In reranked-hybrid mode with a non-empty merged candidate list,
    the reranker is called exactly once, with the original query, the
    whole merged list and the caller's [top_k]; what it returns (or
    raises) is what the operation returns (or raises). *)
Theorem reranked_calls_reranker_once (request : SearchRequest) (w : World S)
    (query_vec : list S) (vector_results bm25_results : list loc)
    (h1 h2 h3 : Heap S) :
  embed_query C (query request) (heap w) = (Return query_vec, h1) →
  similarity_search C query_vec MASTER_INDEX (expanded_k (top_k request)) h1
    = (Return vector_results, h2) →
  bm25_search C (query request) MASTER_INDEX (expanded_k (top_k request)) h2
    = (Return bm25_results, h3) →
  combine_docs h3 vector_results bm25_results ≠ [] →
  hybrid_search_reranked MASTER_INDEX C request w
  = let combined_docs := combine_docs h3 vector_results bm25_results in
    let reranked :=
      rerank_results C (query request) combined_docs (top_k request) h3 in
    (match reranked.1 with
     | Return reranked_docs => Return {| results := reranked_docs |}
     | Raise e => Raise e
     end,
     {| heap := reranked.2;
        calls := calls w ++
          [EmbedQuery (query request);
           SimilaritySearch query_vec MASTER_INDEX (expanded_k (top_k request));
           Bm25Search (query request) MASTER_INDEX (expanded_k (top_k request));
           RerankResults (query request) combined_docs (top_k request)] |}).
Proof.
  intros Hembed Hsim Hbm25 Hne. run.
  rewrite Hembed; simpl. rewrite Hsim; simpl. rewrite Hbm25; simpl.
  destruct (combine_docs h3 vector_results bm25_results) as [|d ds] eqn:Hc;
    [done|].
  simpl.
  destruct (rerank_results C (query request) (d :: ds) (top_k request) h3)
    as [[out|e] h4]; simpl; by rewrite <-!app_assoc.
Qed.

(** C8. In engine-native hybrid mode, an exception raised by the hybrid
    search pipeline of the vector store reaches the caller unchanged: no
    response, and no call after the failed one. *)
Theorem native_hybrid_propagates (request : SearchRequest) (w : World S)
    (query_vec : list S) (e : exn) (h1 h2 : Heap S) :
  embed_query C (query request) (heap w) = (Return query_vec, h1) →
  hybrid_search_with_pipeline C (query request) query_vec MASTER_INDEX
    "hybrid-search-pipeline" (top_k request) h1 = (Raise e, h2) →
  hybrid_search_native MASTER_INDEX C request w
  = (Raise e,
     {| heap := h2;
        calls := calls w ++
          [EmbedQuery (query request);
           HybridSearchWithPipeline (query request) query_vec MASTER_INDEX
             "hybrid-search-pipeline" (top_k request)] |}).
Proof.
  intros Hembed Hhybrid. run.
  rewrite Hembed; simpl. rewrite Hhybrid; simpl.
  by rewrite <-!app_assoc.
Qed.

(** C4. Reranked-hybrid mode asks both searches for
    [expanded_k = max(top_k * 3, 30)] candidates.  The calls it makes are
    exactly these, in this order: the query is embedded; if that
    succeeds, the similarity search is asked for [max(top_k * 3, 30)]
    candidates of the embedded vector; if that succeeds, the BM25 search
    is asked for [max(top_k * 3, 30)] candidates of the query text; if
    that succeeds and the merged list is not empty, the reranker is
    called with [top_k].  [expanded_k] is 30 for [top_k = 5] and 60 for
    [top_k = 20]. *)
Theorem reranked_requests_expanded_k (request : SearchRequest) (w : World S) :
  expanded_k 5 = 30 ∧ expanded_k 20 = 60 ∧
  calls (hybrid_search_reranked MASTER_INDEX C request w).2 =
    calls w ++
    EmbedQuery (query request) ::
    match embed_query C (query request) (heap w) with
    | (Raise _, _) => []
    | (Return query_vec, h1) =>
      SimilaritySearch query_vec MASTER_INDEX (Z.max (top_k request * 3) 30) ::
      match similarity_search C query_vec MASTER_INDEX
              (Z.max (top_k request * 3) 30) h1 with
      | (Raise _, _) => []
      | (Return vector_results, h2) =>
        Bm25Search (query request) MASTER_INDEX
          (Z.max (top_k request * 3) 30) ::
        match bm25_search C (query request) MASTER_INDEX
                (Z.max (top_k request * 3) 30) h2 with
        | (Raise _, _) => []
        | (Return bm25_results, h3) =>
          match combine_docs h3 vector_results bm25_results with
          | [] => []
          | combined_docs =>
            [RerankResults (query request) combined_docs (top_k request)]
          end
        end
      end
    end.
Proof.
  split; [done|]. split; [done|].
  run. unfold expanded_k.
  destruct (embed_query C (query request) (heap w)) as [[qv|e] h1];
    simpl; [|done].
  destruct (similarity_search C qv MASTER_INDEX _ h1) as [[vs|e] h2];
    simpl; [|by rewrite <-!app_assoc].
  destruct (bm25_search C (query request) MASTER_INDEX _ h2)
    as [[bs|e] h3]; simpl; [|by rewrite <-!app_assoc].
  destruct (combine_docs h3 vs bs) as [|d ds]; simpl;
    [by rewrite <-!app_assoc|].
  destruct (rerank_results C _ _ _ h3) as [[out|e] h4]; simpl;
    by rewrite <-!app_assoc.
Qed.

(** The service itself does not inspect the shape of a request: whatever
    the query and [top_k], vector mode starts by calling the embedding
    model. *)
Remark vector_search_embeds_first (request : SearchRequest) (w : World S) :
  ∃ rest, calls (vector_search MASTER_INDEX C request w).2
          = calls w ++ EmbedQuery (query request) :: rest.
Proof.
  run.
  destruct (embed_query C (query request) (heap w)) as [[qv|e] h1]; simpl.
  - destruct (similarity_search C qv MASTER_INDEX _ h1) as [[vs|e] h2];
      simpl; eexists; by rewrite <-app_assoc.
  - by eexists.
Qed.

(** C9. In every mode, a request of invalid shape (empty query or
    non-positive [top_k]) is rejected as a client-input error before any
    collaborator is called: the world, and so the call trace, is
    unchanged. *)
Theorem invalid_request_rejected (mode : Mode) (request : SearchRequest)
    (w : World S) :
  query request = "" ∨ top_k request ≤ 0 →
  handle_search MASTER_INDEX C mode request w = (inl ClientInputError, w).
Proof.
  intros Hbad. unfold handle_search, valid_shape.
  destruct Hbad as [->|Hk]; [done|].
  replace (0 <? top_k request) with false by (symmetry; apply Z.ltb_ge; lia).
  by rewrite andb_false_r.
Qed.
End Traces.

(** ** Order laws and Python's [max] *)

Section Order.
Context {S : Type} `{ScoreOps S} (finite : S → Prop)
  `{!OrderedDivision S finite}.

Lemma s_gt_asym (x y : S) : s_gt x y = true → s_gt y x = false.
Proof.
  intros Hxy. destruct (s_gt y x) eqn:Hyx; [|done].
  by rewrite <-(s_gt_irrefl x), <-(s_gt_trans x y x Hxy Hyx).
Qed.

Lemma s_le_refl (x : S) : s_le x x.
Proof. apply s_gt_irrefl. Qed.

Lemma s_le_gt_trans (x y z : S) :
  finite x → finite y → finite z →
  s_le x y → s_gt x z = true → s_gt y z = true.
Proof.
  intros Fx Fy Fz Hxy Hxz. destruct (s_gt y z) eqn:Hyz; [done|].
  pose proof (s_le_trans x y z Fx Fy Fz Hxy Hyz) as Hle.
  unfold s_le in Hle. congruence.
Qed.

(** Python's [max] returns an element of the sequence ... *)
Lemma py_max_elem_of (x0 : S) (xs : list S) : py_max x0 xs ∈ x0 :: xs.
Proof.
  revert x0. induction xs as [|x xs IH]; intros x0; simpl; [by left|].
  specialize (IH (if s_gt x x0 then x else x0)).
  apply elem_of_cons in IH as [->|IH].
  - destruct (s_gt x x0); [right; by left|by left].
  - by do 2 right.
Qed.

Lemma py_max_finite (x0 : S) (xs : list S) :
  Forall finite (x0 :: xs) → finite (py_max x0 xs).
Proof.
  intros Hfin. eapply (proj1 (Forall_forall _ _) Hfin), py_max_elem_of.
Qed.

(** ... that no element exceeds. *)
Lemma py_max_first (x0 : S) (xs : list S) :
  Forall finite (x0 :: xs) → s_le x0 (py_max x0 xs).
Proof.
  revert x0. induction xs as [|x xs IH]; intros x0 Hfin; simpl;
    [apply s_le_refl|].
  apply Forall_cons in Hfin as [F0 Hfin].
  pose proof Hfin as [Fx Fxs]%Forall_cons.
  destruct (s_gt x x0) eqn:Hx; [|apply IH; by constructor].
  apply (s_le_trans x0 x); [done..|by apply py_max_finite| |by apply IH].
  by apply s_gt_asym.
Qed.

Lemma py_max_upper_bound (x0 : S) (xs : list S) (y : S) :
  Forall finite (x0 :: xs) → y ∈ x0 :: xs → s_le y (py_max x0 xs).
Proof.
  revert x0. induction xs as [|x xs IH]; intros x0 Hfin.
  - rewrite list_elem_of_singleton. intros ->. apply s_le_refl.
  - rewrite elem_of_cons. intros [->|Hy]; [by apply py_max_first|].
    apply Forall_cons in Hfin as [F0 Hfin].
    pose proof Hfin as [Fx Fxs]%Forall_cons.
    simpl. apply elem_of_cons in Hy as [->|Hy].
    + destruct (s_gt x x0) eqn:Hx; [by apply py_max_first|].
      apply (s_le_trans x x0); [done..| |exact Hx|].
      * apply py_max_finite. by constructor.
      * apply py_max_first. by constructor.
    + apply IH; [|by right]. constructor; [by destruct (s_gt x x0)|done].
Qed.
End Order.

(** ** Canonical rationals are an exact ordered arithmetic *)

Lemma Qc_gt_spec (x y : Qc) : Qc_gt x y = true ↔ (y < x)%Qc.
Proof.
  unfold Qc_gt. change (y < x)%Qc with (x > y)%Qc. rewrite Qcgt_alt.
  destruct (x ?= y)%Qc; split; congruence.
Qed.

Lemma Qc_gt_false (x y : Qc) : Qc_gt x y = false ↔ (x ≤ y)%Qc.
Proof.
  rewrite Qcle_ngt, <-Qc_gt_spec. destruct (Qc_gt x y); split; congruence.
Qed.

Lemma Qc_div_strict : DivStrict Qc.
Proof.
  intros x y m. simpl. rewrite !Qc_gt_spec. intros Hm Hxy.
  by apply Qcmult_lt_compat_r; [apply Qcinv_pos|].
Qed.

Lemma Qc_div_monotone : DivMonotone Qc.
Proof.
  intros x y m. unfold s_le. simpl. rewrite Qc_gt_spec, !Qc_gt_false.
  intros Hm Hxy. by apply Qcmult_le_compat_r; [|apply Qclt_le_weak, Qcinv_pos].
Qed.

Lemma Qc_ordered_division : OrderedDivision Qc (λ _, True).
Proof.
  split; [done|..]; simpl.
  - intros x. apply Qc_gt_false. reflexivity.
  - intros x y z. rewrite !Qc_gt_spec. intros ? ?. by etrans.
  - intros x y z _ _ _. unfold s_le. simpl. rewrite !Qc_gt_false.
    intros ? ?. by etrans.
  - intros m _. rewrite Qc_gt_spec. intros Hm. apply Qcmult_inv_r.
    intros ->. by apply (irreflexivity Qclt 0%Qc).
  - intros m _. apply Qcmult_0_l.
  - apply Qc_div_monotone.
Qed.

(** ** Binary64: comparisons with zero *)

(** For a binary64 score, [m <= 0] implies that the guard [m > 0] of the
    service is false.  (The guard is also false for NaN.) *)
Lemma binary64_le_zero (m : float) : PrimFloat.leb m 0 = true → s_le m s_zero.
Proof.
  unfold s_le. simpl. rewrite FloatAxioms.leb_spec, FloatAxioms.ltb_spec.
  change (Prim2SF 0) with (S754_zero false).
  by destruct (Prim2SF m) as [[]|[]| |[] ? ?].
Qed.

(** Conversely, a false guard on a number (not NaN) means [m <= 0]. *)
Lemma binary64_not_gt_zero (m : float) :
  PrimFloat.is_nan m = false → s_le m s_zero → PrimFloat.leb m 0 = true.
Proof.
  unfold s_le, PrimFloat.is_nan. simpl.
  rewrite FloatAxioms.leb_spec, FloatAxioms.ltb_spec, FloatAxioms.eqb_spec.
  change (Prim2SF 0) with (S754_zero false).
  destruct (Prim2SF m) as [[]|[]| |[] mm e]; try done.
  all: unfold SFeqb, SFcompare; rewrite Z.compare_refl;
    by rewrite Pos.compare_cont_refl.
Qed.

(** ** Binary64 division by a positive divisor is monotone

    The division of the service, [result.score / max_score], is
    [PrimFloat.div], specified by [SFdiv].  This part derives from that
    specification that dividing two finite floats by the same positive
    float never inverts their order. *)

(** *** Number of binary digits *)

Lemma digits2_pos_spec (p : positive) :
  2 ^ (Zpos (digits2_pos p) - 1) ≤ Zpos p < 2 ^ Zpos (digits2_pos p).
Proof.
  induction p as [p IH|p IH|]; simpl digits2_pos.
  - rewrite Pos2Z.inj_succ.
    replace (Z.succ (Zpos (digits2_pos p)) - 1)
      with (Zpos (digits2_pos p) - 1 + 1) by lia.
    rewrite Z.pow_succ_r by lia. rewrite Z.pow_add_r by lia.
    change (2 ^ 1) with 2. lia.
  - rewrite Pos2Z.inj_succ.
    replace (Z.succ (Zpos (digits2_pos p)) - 1)
      with (Zpos (digits2_pos p) - 1 + 1) by lia.
    rewrite Z.pow_succ_r by lia. rewrite Z.pow_add_r by lia.
    change (2 ^ 1) with 2. lia.
  - simpl. lia.
Qed.

Lemma Zdigits2_nonneg m : 0 ≤ Zdigits2 m.
Proof. destruct m; simpl; lia. Qed.

Lemma Zdigits2_spec m :
  0 < m → 2 ^ (Zdigits2 m - 1) ≤ m < 2 ^ Zdigits2 m.
Proof. destruct m; try lia. intros _. apply digits2_pos_spec. Qed.

Lemma Zdigits2_lt_pow m j : 0 ≤ m → 0 ≤ j → m < 2 ^ j → Zdigits2 m ≤ j.
Proof.
  intros Hm Hj Hlt. destruct (decide (m = 0)) as [->|]; [simpl; lia|].
  destruct (Zdigits2_spec m) as [Hlo _]; [lia|].
  destruct (decide (Zdigits2 m ≤ j)); [done|].
  assert (2 ^ j ≤ 2 ^ (Zdigits2 m - 1)) by (apply Z.pow_le_mono_r; lia). lia.
Qed.

Lemma Zdigits2_ge_pow m j : 0 ≤ j → 2 ^ j ≤ m → j + 1 ≤ Zdigits2 m.
Proof.
  intros Hj Hle. assert (0 < 2 ^ j) by (apply Z.pow_pos_nonneg; lia).
  destruct (Zdigits2_spec m) as [_ Hhi]; [lia|].
  destruct (decide (j + 1 ≤ Zdigits2 m)); [done|].
  pose proof (Zdigits2_nonneg m).
  assert (2 ^ Zdigits2 m ≤ 2 ^ j) by (apply Z.pow_le_mono_r; lia). lia.
Qed.

Lemma Zdigits2_mono m1 m2 : 0 ≤ m1 ≤ m2 → Zdigits2 m1 ≤ Zdigits2 m2.
Proof.
  intros [H1 H2]. destruct (decide (m2 = 0)) as [->|].
  { by replace m1 with 0 by lia. }
  apply Zdigits2_lt_pow; [done|apply Zdigits2_nonneg|].
  destruct (Zdigits2_spec m2); lia.
Qed.

Ltac zbool :=
  repeat match goal with
  | |- context [?a <=? ?b] => destruct (Z.leb_spec a b)
  | |- context [?a <? ?b] => destruct (Z.ltb_spec a b)
  | |- context [?a =? ?b] => destruct (Z.eqb_spec a b)
  end.

(** *** Shifting

    The location [SFdiv_core_binary] attaches to a quotient is that of
    [shr_rec]; shifting right by one bit doubles the divisor. *)

Lemma shr_rec_of_loc A B :
  0 < B →
  shr_record_of_loc (A / B) (new_location B (A mod B)) = shr_rec A B.
Proof.
  intros HB. pose proof (Z.mod_pos_bound A B HB) as Hr.
  unfold shr_rec, new_location, new_location_even, new_location_odd.
  destruct (Z.eqb_spec (A mod B) 0) as [H0|H0]; simpl.
  { rewrite H0. destruct (Z.even B); simpl; zbool; done || lia. }
  destruct (Z.even B) eqn:Hev.
  - destruct (Z.compare_spec (2 * (A mod B)) B); simpl; zbool;
      simpl; done || lia.
  - assert (Z.odd B = true) as Hodd by (by rewrite <-Z.negb_even, Hev).
    apply Z.odd_spec in Hodd as [k ->].
    destruct (Z.compare_spec (2 * (A mod (2 * k + 1)) + 1) (2 * k + 1));
      simpl; zbool; simpl; done || lia.
Qed.

Lemma shr_1_nonneg m r s :
  0 ≤ m →
  shr_1 {| shr_m := m; shr_r := r; shr_s := s |}
  = {| shr_m := m / 2; shr_r := Z.odd m; shr_s := r || s |}.
Proof.
  intros Hm. destruct m as [|[p|p|]|]; try lia; simpl; f_equal.
  - rewrite Pos2Z.inj_xI. apply Z.div_unique with 1; lia.
  - rewrite Pos2Z.inj_xO. apply Z.div_unique with 0; lia.
Qed.

Lemma shr_1_rec A B :
  0 ≤ A → 0 < B → shr_1 (shr_rec A B) = shr_rec A (2 * B).
Proof.
  intros HA HB. unfold shr_rec.
  rewrite shr_1_nonneg by (apply Z.div_pos; lia).
  pose proof (Z.mod_pos_bound A B HB) as Hr.
  pose proof (Z.mod_pos_bound (A / B) 2 ltac:(lia)) as Hr2.
  assert (A mod (2 * B) = A mod B + B * ((A / B) mod 2)) as Hmod.
  { rewrite (Z.mul_comm 2 B). apply Z.rem_mul_r; lia. }
  assert (Z.odd (A / B) = ((A / B) mod 2 =? 1)) as Hodd.
  { rewrite Zmod_odd. by destruct (Z.odd (A / B)). }
  rewrite Hodd, Hmod, (Z.mul_comm 2 B), Z.div_div by lia.
  assert ((A / B) mod 2 = 0 ∨ (A / B) mod 2 = 1) as [->| ->] by lia;
    rewrite ?Z.mul_0_r, ?Z.mul_1_r, ?Z.add_0_r; f_equal;
    zbool; simpl; done || lia.
Qed.

Lemma pow2_xO p : 2 ^ Zpos p~0 = 2 ^ Zpos p * 2 ^ Zpos p.
Proof. rewrite <-Z.pow_add_r by lia. f_equal. lia. Qed.

Lemma pow2_xI p : 2 ^ Zpos p~1 = 2 ^ Zpos p * (2 ^ Zpos p * 2).
Proof.
  rewrite Pos2Z.inj_xI, Z.pow_add_r, Z.pow_1_r, Z.mul_assoc by lia.
  f_equal. rewrite <-Z.pow_add_r by lia. f_equal. lia.
Qed.

Lemma iter_pos_shr_rec p A B :
  0 ≤ A → 0 < B →
  SpecFloat.iter_pos shr_1 p (shr_rec A B) = shr_rec A (2 ^ Zpos p * B).
Proof.
  intros HA. revert B.
  induction p as [p IH|p IH|]; intros B HB; cbn [SpecFloat.iter_pos].
  - assert (0 < 2 ^ Zpos p) by (apply Z.pow_pos_nonneg; lia).
    rewrite shr_1_rec, !IH by nia. f_equal. rewrite pow2_xI. lia.
  - assert (0 < 2 ^ Zpos p) by (apply Z.pow_pos_nonneg; lia).
    rewrite !IH by nia. f_equal. rewrite pow2_xO. lia.
  - by rewrite shr_1_rec.
Qed.

Lemma shr_shr_rec A B e n :
  0 ≤ A → 0 < B →
  shr (shr_rec A B) e n = (shr_rec A (2 ^ Z.max 0 n * B), e + Z.max 0 n).
Proof.
  intros HA HB. destruct n as [|p|p]; simpl shr.
  - rewrite Z.max_id. change (2 ^ 0) with 1. by rewrite Z.mul_1_l, Z.add_0_r.
  - rewrite iter_pos_shr_rec by done. by rewrite Z.max_r by lia.
  - rewrite Z.max_l by lia. change (2 ^ 0) with 1.
    by rewrite Z.mul_1_l, Z.add_0_r.
Qed.

Lemma shr_rec_scale c A B :
  0 < c → 0 < B → shr_rec (c * A) (c * B) = shr_rec A B.
Proof.
  intros Hc HB. unfold shr_rec.
  rewrite Z.div_mul_cancel_l by lia.
  rewrite Z.mul_mod_distr_l by lia.
  pose proof (Z.mod_pos_bound A B HB).
  f_equal.
  - destruct (Z.leb_spec (c * B) (2 * (c * (A mod B)))),
      (Z.leb_spec B (2 * (A mod B))); try done; nia.
  - destruct (Z.eqb_spec (c * (A mod B)) 0), (Z.eqb_spec (A mod B) 0),
      (Z.eqb_spec (2 * (c * (A mod B))) (c * B)), (Z.eqb_spec (2 * (A mod B)) B);
      simpl; try done; nia.
Qed.

Lemma shr_rec_exact M : shr_record_of_loc M loc_Exact = shr_rec M 1.
Proof.
  unfold shr_rec. simpl. rewrite Z.div_1_r, Z.mod_1_r. done.
Qed.

(** *** Rounding to nearest, ties to even, is monotone *)

Lemma rne_bounds A B : 0 < B → A / B ≤ rne A B ≤ A / B + 1.
Proof.
  intros HB. unfold rne, shr_rec. cbn [shr_m shr_r shr_s].
  zbool; simpl; try destruct (Z.even (A / B)); lia.
Qed.

Lemma rne_mono A1 A2 B : A1 ≤ A2 → 0 < B → rne A1 B ≤ rne A2 B.
Proof.
  intros H12 HB.
  pose proof (Z.div_mod A1 B ltac:(lia)) as E1.
  pose proof (Z.div_mod A2 B ltac:(lia)) as E2.
  pose proof (Z.mod_pos_bound A1 B HB).
  pose proof (Z.mod_pos_bound A2 B HB).
  pose proof (Z.div_le_mono A1 A2 B HB H12) as Hq.
  unfold rne, shr_rec. cbn [shr_m shr_r shr_s].
  remember (A1 / B) as q1. remember (A2 / B) as q2.
  remember (A1 mod B) as r1. remember (A2 mod B) as r2.
  destruct (decide (q1 = q2)) as [->|];
    zbool; simpl; try destruct (Z.even q1); try destruct (Z.even q2); lia.
Qed.

Lemma rne_scale c A B : 0 < c → 0 < B → rne (c * A) (c * B) = rne A B.
Proof. intros. unfold rne. by rewrite shr_rec_scale. Qed.

Lemma rne_lt_pow A B k : 0 < B → A < k * B → rne A B ≤ k.
Proof.
  intros HB Hlt. pose proof (rne_bounds A B HB).
  assert (A / B < k) by (apply Z.div_lt_upper_bound; lia). lia.
Qed.

Lemma rne_ge_pow A B k : 0 < B → k * B ≤ A → k ≤ rne A B.
Proof.
  intros HB Hlt. pose proof (rne_bounds A B HB).
  assert (k ≤ A / B) by (apply Z.div_le_lower_bound; lia). lia.
Qed.

(** *** The two steps of [binary_round_aux] *)

Section Binary64Division.
Variables prec emax : Z.
Hypothesis prec_pos : 0 < prec.


(** [binary_round_aux] on a quotient is [round_div]. *)
Lemma binary_round_aux_div sx A B e :
  0 ≤ A → 0 < B →
  binary_round_aux prec emax sx (A / B) e (new_location B (A mod B))
  = pack prec emax sx (round_div prec emax A B e).
Proof.
  intros HA HB. unfold binary_round_aux, shr_fexp, round_div, pack.
  rewrite shr_rec_of_loc, shr_shr_rec by done.
  fold (rne A (2 ^ Z.max 0 (fexp prec emax (Zdigits2 (A / B) + e) - e) * B)).
  set (n := Z.max 0 (fexp prec emax (Zdigits2 (A / B) + e) - e)).
  set (M := rne A (2 ^ n * B)).
  assert (0 < 2 ^ n) by (apply Z.pow_pos_nonneg; lia).
  assert (0 ≤ M).
  { pose proof (rne_bounds A (2 ^ n * B) ltac:(nia)).
    assert (0 ≤ A / (2 ^ n * B)) by (apply Z.div_pos; nia). lia. }
  rewrite shr_rec_exact, shr_shr_rec by lia.
  cbn [shr_rec shr_m fst snd]. by rewrite Z.mul_1_r.
Qed.

(** The rounded mantissa has at most [prec] bits, or is [2 ^ prec] and is
    shifted once more. *)
Lemma round_div_carry A B e :
  0 ≤ A → 0 < B →
  let n := Z.max 0 (fexp prec emax (Zdigits2 (A / B) + e) - e) in
  let M := rne A (2 ^ n * B) in
  0 ≤ M ≤ 2 ^ prec ∧
  round_div prec emax A B e =
    if M =? 2 ^ prec then (2 ^ (prec - 1), e + n + 1) else (M, e + n).
Proof.
  intros HA HB n M. unfold round_div. fold n. fold M.
  assert (0 < 2 ^ n) as Hn by (apply Z.pow_pos_nonneg; lia).
  assert (0 < 2 ^ prec) as Hp by (apply Z.pow_pos_nonneg; lia).
  assert (0 ≤ A / B) as Hq by (apply Z.div_pos; lia).
  assert (0 ≤ M) as HM0.
  { pose proof (rne_bounds A (2 ^ n * B) ltac:(nia)).
    assert (0 ≤ A / (2 ^ n * B)) by (apply Z.div_pos; nia). lia. }
  assert (M ≤ 2 ^ prec) as HM.
  { apply rne_lt_pow; [nia|].
    assert (A / B < 2 ^ (n + prec)) as Hlt.
    { destruct (decide (A / B = 0)) as [->|]; [apply Z.pow_pos_nonneg; lia|].
      destruct (Zdigits2_spec (A / B)) as [_ Hhi]; [lia|].
      eapply Z.lt_le_trans; [exact Hhi|].
      apply Z.pow_le_mono_r; [lia|]. unfold n, SpecFloat.fexp. lia. }
    rewrite Z.pow_add_r in Hlt by lia.
    pose proof (Z.mul_div_le A B HB).
    pose proof (Z.div_mod A B ltac:(lia)).
    pose proof (Z.mod_pos_bound A B HB). nia. }
  split; [done|].
  destruct (Z.eqb_spec M (2 ^ prec)) as [HMe|HMe].
  - assert (Zdigits2 M = prec + 1) as Hd.
    { apply Z.le_antisymm.
      - apply Zdigits2_lt_pow; [lia..|]. rewrite HMe.
        apply Z.pow_lt_mono_r; lia.
      - apply Zdigits2_ge_pow; lia. }
    rewrite Hd.
    replace (Z.max 0 (fexp prec emax (prec + 1 + (e + n)) - (e + n))) with 1
      by (unfold n, SpecFloat.fexp, SpecFloat.emin; lia).
    rewrite HMe, Z.pow_1_r. f_equal.
    replace prec with (prec - 1 + 1) at 1 by lia.
    rewrite Z.pow_add_r, Z.pow_1_r by lia. by rewrite Z.div_mul by lia.
  - assert (Zdigits2 M ≤ prec) as Hd by (apply Zdigits2_lt_pow; lia).
    replace (Z.max 0 (fexp prec emax (Zdigits2 M + (e + n)) - (e + n))) with 0
      by (unfold n, SpecFloat.fexp, SpecFloat.emin; lia).
    by rewrite Z.pow_0_r, Z.div_1_r, Z.add_0_r.
Qed.

(** At a fixed divisor and exponent a greater numerator gives a greater
    or equal result. *)
Lemma round_div_mono A1 A2 B e :
  0 ≤ A1 ≤ A2 → 0 < B →
  pair_le (round_div prec emax A1 B e) (round_div prec emax A2 B e).
Proof.
  intros [HA1 H12] HB.
  destruct (round_div_carry A1 B e HA1 HB) as [[HM1 HM1'] ->].
  destruct (round_div_carry A2 B e ltac:(lia) HB) as [[HM2 HM2'] ->].
  set (n1 := Z.max 0 (fexp prec emax (Zdigits2 (A1 / B) + e) - e)) in *.
  set (n2 := Z.max 0 (fexp prec emax (Zdigits2 (A2 / B) + e) - e)) in *.
  set (M1 := rne A1 (2 ^ n1 * B)) in *.
  set (M2 := rne A2 (2 ^ n2 * B)) in *.
  assert (0 ≤ A1 / B) as Hq1 by (apply Z.div_pos; lia).
  assert (A1 / B ≤ A2 / B) as Hq by (apply Z.div_le_mono; lia).
  assert (Zdigits2 (A1 / B) ≤ Zdigits2 (A2 / B)) as Hd
    by (apply Zdigits2_mono; lia).
  assert (0 < 2 ^ (prec - 1)) as Hp1 by (apply Z.pow_pos_nonneg; lia).
  assert (2 ^ prec = 2 * 2 ^ (prec - 1)) as Hp.
  { replace prec with (prec - 1 + 1) at 1 by lia.
    rewrite Z.pow_add_r, Z.pow_1_r by lia. lia. }
  assert (n1 ≤ n2) as Hn by (unfold n1, n2, SpecFloat.fexp; lia).
  assert (0 < 2 ^ n1) by (apply Z.pow_pos_nonneg; lia).
  assert (0 < 2 ^ n2) by (apply Z.pow_pos_nonneg; lia).
  unfold pair_le.
  destruct (decide (n1 = n2)) as [Heq|Hne].
  - assert (M1 ≤ M2) as HM.
    { unfold M1, M2. rewrite Heq. apply rne_mono; [lia|nia]. }
    rewrite Heq.
    destruct (Z.eqb_spec M1 (2 ^ prec)), (Z.eqb_spec M2 (2 ^ prec));
      cbn [fst snd]; lia.
  - assert (n2 = Zdigits2 (A2 / B) - prec ∧ 0 < n2) as [Hn2 Hn2']
      by (unfold n1, n2, SpecFloat.fexp in *; lia).
    assert (2 ^ (prec - 1) ≤ M2) as HM.
    { apply rne_ge_pow; [nia|].
      destruct (Zdigits2_spec (A2 / B)) as [Hlo _].
      { destruct (A2 / B); simpl in *; lia. }
      replace (Zdigits2 (A2 / B) - 1) with (prec - 1 + n2) in Hlo by lia.
      rewrite Z.pow_add_r in Hlo by lia.
      pose proof (Z.mul_div_le A2 B HB). nia. }
    destruct (Z.eqb_spec M1 (2 ^ prec)), (Z.eqb_spec M2 (2 ^ prec));
      cbn [fst snd]; lia.
Qed.

Lemma div_lt_inv A B c : 0 < B → A / B < c → A < c * B.
Proof.
  intros HB Hlt. pose proof (Z.div_mod A B ltac:(lia)).
  pose proof (Z.mod_pos_bound A B HB). nia.
Qed.

Lemma div_ge_inv A B c : 0 < B → c ≤ A / B → c * B ≤ A.
Proof.
  intros HB Hlt. pose proof (Z.div_mod A B ltac:(lia)).
  pose proof (Z.mod_pos_bound A B HB). nia.
Qed.

Lemma Zdigits2_scale A B k :
  0 < B → 0 ≤ k → 0 < A / B →
  Zdigits2 (2 ^ k * A / B) = Zdigits2 (A / B) + k.
Proof.
  intros HB Hk Hq.
  destruct (Zdigits2_spec (A / B) Hq) as [Hlo Hhi].
  pose proof (Zdigits2_nonneg (A / B)).
  assert (1 ≤ Zdigits2 (A / B)).
  { destruct (A / B); simpl in *; lia. }
  assert (0 < 2 ^ k) by (apply Z.pow_pos_nonneg; lia).
  apply div_lt_inv in Hhi; [|done]. apply div_ge_inv in Hlo; [|done].
  assert (0 < 2 ^ (Zdigits2 (A / B) - 1)) by (apply Z.pow_pos_nonneg; lia).
  apply Z.le_antisymm.
  - apply Zdigits2_lt_pow; [apply Z.div_pos; nia|lia|].
    apply Z.div_lt_upper_bound; [done|].
    rewrite Z.pow_add_r by lia. nia.
  - replace (Zdigits2 (A / B) + k) with (Zdigits2 (A / B) - 1 + k + 1) by lia.
    apply Zdigits2_ge_pow; [lia|].
    apply Z.div_le_lower_bound; [done|].
    rewrite Z.pow_add_r by lia. nia.
Qed.

(** Scaling the numerator by [2 ^ k] and lowering the exponent by [k]
    does not change the result, once the exponent is small enough for the
    quotient to be shifted. *)
Lemma round_div_refine A B e k :
  0 ≤ A → 0 < B → 0 ≤ k →
  e ≤ fexp prec emax (Zdigits2 (A / B) + e) →
  round_div prec emax (2 ^ k * A) B (e - k) = round_div prec emax A B e.
Proof.
  intros HA HB Hk Hfine. unfold round_div.
  assert (0 < 2 ^ k) as Hk2 by (apply Z.pow_pos_nonneg; lia).
  assert (0 ≤ A / B) as Hq by (apply Z.div_pos; lia).
  assert (Z.max 0 (fexp prec emax (Zdigits2 (2 ^ k * A / B) + (e - k)) - (e - k))
          = Z.max 0 (fexp prec emax (Zdigits2 (A / B) + e) - e) + k) as ->.
  { destruct (decide (A / B = 0)) as [H0|H0].
    - rewrite H0 in *. simpl Zdigits2 in *.
      assert (Zdigits2 (2 ^ k * A / B) ≤ k).
      { apply Zdigits2_lt_pow; [apply Z.div_pos; nia|lia|].
        apply Z.div_lt_upper_bound; [done|].
        assert (A < 1 * B) by (apply div_lt_inv; lia). nia. }
      unfold SpecFloat.fexp in *. lia.
    - rewrite Zdigits2_scale by lia. unfold SpecFloat.fexp in *. lia. }
  set (n := Z.max 0 (fexp prec emax (Zdigits2 (A / B) + e) - e)).
  assert (0 < 2 ^ n) by (apply Z.pow_pos_nonneg; lia).
  replace (2 ^ (n + k) * B) with (2 ^ k * (2 ^ n * B))
    by (rewrite Z.pow_add_r by lia; lia).
  rewrite rne_scale by nia.
  by replace (e - k + (n + k)) with (e + n) by lia.
Qed.

(** What [SFdiv_core_binary] computes on two mantissas. *)
Lemma SFdiv_core_binary_eq mx ex mm em :
  let e' :=
    Z.min (fexp prec emax
             (Zpos (digits2_pos mx) + ex - (Zpos (digits2_pos mm) + em)))
          (ex - em) in
  let A := Zpos mx * 2 ^ (ex - em - e') in
  SFdiv_core_binary prec emax (Zpos mx) ex (Zpos mm) em
  = (A / Zpos mm, e', new_location (Zpos mm) (A mod Zpos mm)).
Proof.
  intros e' A. unfold SFdiv_core_binary. cbn [Zdigits2]. fold e'.
  assert (0 ≤ ex - em - e') as Hs by (unfold e'; lia).
  assert (match ex - em - e' with
          | 0 => Zpos mx
          | Zpos _ => Z.shiftl (Zpos mx) (ex - em - e')
          | Zneg _ => 0
          end = A) as ->.
  { unfold A. destruct (ex - em - e') eqn:Hse; [lia| |lia].
    by rewrite Z.shiftl_mul_pow2 by lia. }
  unfold Z.div, Z.modulo. by destruct (Z.div_eucl A (Zpos mm)).
Qed.

(** The exponent [SFdiv_core_binary] chooses is small enough. *)
Lemma div_core_fine mx ex mm em :
  let e' :=
    Z.min (fexp prec emax
             (Zpos (digits2_pos mx) + ex - (Zpos (digits2_pos mm) + em)))
          (ex - em) in
  let A := Zpos mx * 2 ^ (ex - em - e') in
  e' ≤ fexp prec emax (Zdigits2 (A / Zpos mm) + e').
Proof.
  intros e' A.
  set (d1 := Zpos (digits2_pos mx)) in *. set (d2 := Zpos (digits2_pos mm)) in *.
  set (K := d1 + ex - (d2 + em)) in *.
  assert (0 ≤ ex - em - e') as Hs by (unfold e'; lia).
  assert (e' ≤ fexp prec emax K) as He' by (unfold e'; lia).
  pose proof (Zdigits2_nonneg (A / Zpos mm)).
  destruct (decide (K ≤ e')) as [HK|HK].
  { unfold SpecFloat.fexp in *. lia. }
  assert (K - e' ≤ Zdigits2 (A / Zpos mm)); [|unfold SpecFloat.fexp in *; lia].
  replace (K - e') with (K - e' - 1 + 1) by lia.
  apply Zdigits2_ge_pow; [lia|].
  apply Z.div_le_lower_bound; [lia|].
  pose proof (digits2_pos_spec mx) as [Hx _].
  pose proof (digits2_pos_spec mm) as [_ Hm].
  fold d1 in Hx. fold d2 in Hm.
  assert (0 < 2 ^ (K - e' - 1)) by (apply Z.pow_pos_nonneg; lia).
  assert (0 < 2 ^ (ex - em - e')) by (apply Z.pow_pos_nonneg; lia).
  assert (2 ^ (K - e' - 1) * 2 ^ d2 = 2 ^ (d1 - 1) * 2 ^ (ex - em - e')) as Heq.
  { rewrite <-!Z.pow_add_r by (unfold d1, d2; lia). f_equal. unfold K. lia. }
  unfold A. nia.
Qed.

Lemma round_div_nonneg A B e :
  0 ≤ A → 0 < B → 0 ≤ (round_div prec emax A B e).1.
Proof.
  intros HA HB. destruct (round_div_carry A B e HA HB) as [[HM _] ->].
  assert (0 < 2 ^ (prec - 1)) by (apply Z.pow_pos_nonneg; lia).
  destruct (_ =? _); cbn [fst]; lia.
Qed.

Lemma bounded_digits m e :
  bounded prec emax m e = true →
  Zpos (digits2_pos m) ≤ prec ∧
  (SpecFloat.emin prec emax < e → Zpos (digits2_pos m) = prec) ∧
  SpecFloat.emin prec emax ≤ e.
Proof.
  unfold bounded, canonical_mantissa, SpecFloat.fexp.
  intros [H _]%andb_prop. apply Z.eqb_eq in H. lia.
Qed.

(** The order of two valid positive floats is that of their values. *)
Lemma bounded_le mx ex my ey c :
  bounded prec emax mx ex = true → bounded prec emax my ey = true →
  c ≤ ex → c ≤ ey →
  ex < ey ∨ ex = ey ∧ (mx ≤ my)%positive →
  Zpos mx * 2 ^ (ex - c) ≤ Zpos my * 2 ^ (ey - c).
Proof.
  intros Hx Hy Hcx Hcy Hle.
  assert (0 < 2 ^ (ex - c)) by (apply Z.pow_pos_nonneg; lia).
  destruct Hle as [Hlt|[-> Hm]]; [|nia].
  destruct (bounded_digits _ _ Hx) as (Hdx & _ & Hex).
  destruct (bounded_digits _ _ Hy) as (_ & Hdy & _).
  specialize (Hdy ltac:(lia)).
  pose proof (digits2_pos_spec mx) as [_ Hxhi].
  pose proof (digits2_pos_spec my) as [Hylo _]. rewrite Hdy in Hylo.
  assert (2 ^ Zpos (digits2_pos mx) ≤ 2 ^ prec)
    by (apply Z.pow_le_mono_r; lia).
  assert (2 ^ prec = 2 * 2 ^ (prec - 1)) as Hp.
  { replace prec with (prec - 1 + 1) at 1 by lia.
    rewrite Z.pow_add_r, Z.pow_1_r by lia. lia. }
  replace (ey - c) with (ey - ex - 1 + 1 + (ex - c)) by lia.
  rewrite !Z.pow_add_r, Z.pow_1_r by lia.
  assert (0 < 2 ^ (ey - ex - 1)) by (apply Z.pow_pos_nonneg; lia).
  assert (Zpos mx ≤ Zpos my * (2 ^ (ey - ex - 1) * 2)) by nia.
  rewrite Z.mul_assoc. apply Z.mul_le_mono_nonneg_r; lia.
Qed.

(** *** Comparison of the packed results *)

Lemma pack_le_pos p1 p2 :
  0 ≤ p1.1 → 0 ≤ p2.1 → pair_le p1 p2 →
  SFleb (pack prec emax false p1) (pack prec emax false p2) = true.
Proof.
  destruct p1 as [M1 E1], p2 as [M2 E2]. unfold pair_le, pack. cbn [fst snd].
  intros H1 H2 Hle.
  destruct M1 as [|m1|m1], M2 as [|m2|m2]; try lia; try done.
  - by destruct (E2 <=? _).
  - destruct (Z.leb_spec E1 (emax - prec)), (Z.leb_spec E2 (emax - prec));
      try done; [|lia].
    unfold SFleb, SFcompare.
    destruct Hle as [|[_ [Hlt|[-> Hm]]]]; [lia| |].
    + by rewrite (proj2 (Z.compare_lt_iff _ _) Hlt).
    + rewrite Z.compare_refl. fold (Pos.compare m1 m2).
      destruct (Pos.compare_spec m1 m2); try done; lia.
Qed.

Lemma pack_le_neg p1 p2 :
  0 ≤ p1.1 → 0 ≤ p2.1 → pair_le p1 p2 →
  SFleb (pack prec emax true p2) (pack prec emax true p1) = true.
Proof.
  destruct p1 as [M1 E1], p2 as [M2 E2]. unfold pair_le, pack. cbn [fst snd].
  intros H1 H2 Hle.
  destruct M1 as [|m1|m1], M2 as [|m2|m2]; try lia; try done.
  - by destruct (E2 <=? _).
  - destruct (Z.leb_spec E1 (emax - prec)), (Z.leb_spec E2 (emax - prec));
      try done; [|lia].
    unfold SFleb, SFcompare.
    destruct Hle as [|[_ [Hlt|[-> Hm]]]]; [lia| |].
    + by rewrite (proj2 (Z.compare_gt_iff _ _) Hlt).
    + rewrite Z.compare_refl. fold (Pos.compare m2 m1).
      destruct (Pos.compare_spec m2 m1); try done; lia.
Qed.

Lemma pack_sign_le p1 p2 :
  0 ≤ p1.1 → 0 ≤ p2.1 →
  SFleb (pack prec emax true p1) (pack prec emax false p2) = true.
Proof.
  destruct p1 as [M1 E1], p2 as [M2 E2]. unfold pack. cbn [fst snd].
  intros H1 H2.
  destruct M1 as [|m1|m1], M2 as [|m2|m2]; try lia; try done;
    repeat destruct (_ <=? _); done.
Qed.

Lemma pack_zero_le s p :
  0 ≤ p.1 → SFleb (S754_zero s) (pack prec emax false p) = true.
Proof.
  destruct p as [M E]. unfold pack. cbn [fst snd]. intros H.
  destruct M; try lia; try done. by destruct (_ <=? _).
Qed.

Lemma pack_le_zero s p :
  0 ≤ p.1 → SFleb (pack prec emax true p) (S754_zero s) = true.
Proof.
  destruct p as [M E]. unfold pack. cbn [fst snd]. intros H.
  destruct M; try lia; try done. by destruct (_ <=? _).
Qed.

Lemma SFdiv_finite sx mx ex sy my ey :
  ∃ p, 0 ≤ p.1 ∧
    SFdiv prec emax (S754_finite sx mx ex) (S754_finite sy my ey)
    = pack prec emax (xorb sx sy) p.
Proof.
  unfold SFdiv. rewrite SFdiv_core_binary_eq.
  eexists. split; [|apply binary_round_aux_div; [|done]].
  - apply round_div_nonneg; [|done].
    apply Z.mul_nonneg_nonneg; [lia|]. apply Z.pow_nonneg; lia.
  - apply Z.mul_nonneg_nonneg; [lia|]. apply Z.pow_nonneg; lia.
Qed.

(** Quotients of two positive mantissas by the same divisor. *)
Lemma SFdiv_magnitude_mono mx ex my ey mm em :
  bounded prec emax mx ex = true → bounded prec emax my ey = true →
  ex < ey ∨ ex = ey ∧ (mx ≤ my)%positive →
  ∃ p1 p2, 0 ≤ p1.1 ∧ 0 ≤ p2.1 ∧ pair_le p1 p2 ∧
    (∀ sx sm, SFdiv prec emax (S754_finite sx mx ex) (S754_finite sm mm em)
              = pack prec emax (xorb sx sm) p1) ∧
    (∀ sy sm, SFdiv prec emax (S754_finite sy my ey) (S754_finite sm mm em)
              = pack prec emax (xorb sy sm) p2).
Proof.
  intros Hx Hy Hle.
  pose proof (div_core_fine mx ex mm em) as Hfx.
  pose proof (div_core_fine my ey mm em) as Hfy.
  pose proof (SFdiv_core_binary_eq mx ex mm em) as Hcx.
  pose proof (SFdiv_core_binary_eq my ey mm em) as Hcy.
  cbv zeta in Hfx, Hfy, Hcx, Hcy.
  set (e1 := Z.min (fexp prec emax (Zpos (digits2_pos mx) + ex
                                     - (Zpos (digits2_pos mm) + em)))
                   (ex - em)) in *.
  set (e2 := Z.min (fexp prec emax (Zpos (digits2_pos my) + ey
                                     - (Zpos (digits2_pos mm) + em)))
                   (ey - em)) in *.
  set (A1 := Zpos mx * 2 ^ (ex - em - e1)) in *.
  set (A2 := Zpos my * 2 ^ (ey - em - e2)) in *.
  assert (e1 ≤ ex - em) as He1 by (unfold e1; lia).
  assert (e2 ≤ ey - em) as He2 by (unfold e2; lia).
  assert (0 ≤ A1) as HA1
    by (apply Z.mul_nonneg_nonneg; [lia|apply Z.pow_nonneg; lia]).
  assert (0 ≤ A2) as HA2
    by (apply Z.mul_nonneg_nonneg; [lia|apply Z.pow_nonneg; lia]).
  exists (round_div prec emax A1 (Zpos mm) e1),
         (round_div prec emax A2 (Zpos mm) e2).
  split; [by apply round_div_nonneg|]. split; [by apply round_div_nonneg|].
  split.
  - set (e0 := Z.min e1 e2).
    rewrite <-(round_div_refine A1 (Zpos mm) e1 (e1 - e0)),
            <-(round_div_refine A2 (Zpos mm) e2 (e2 - e0))
      by (done || unfold e0; lia).
    replace (e1 - (e1 - e0)) with e0 by lia.
    replace (e2 - (e2 - e0)) with e0 by lia.
    apply round_div_mono; [|done].
    assert (0 < 2 ^ (e1 - e0)) by (apply Z.pow_pos_nonneg; unfold e0; lia).
    split; [nia|].
    unfold A1, A2.
    rewrite !(Z.mul_comm (2 ^ _) (_ * _)), <-!Z.mul_assoc,
      <-!Z.pow_add_r by (unfold e0; lia).
    replace (ex - em - e1 + (e1 - e0)) with (ex - (em + e0)) by lia.
    replace (ey - em - e2 + (e2 - e0)) with (ey - (em + e0)) by lia.
    apply bounded_le; (done || unfold e0; lia).
  - split; intros s sm; unfold SFdiv.
    + rewrite Hcx. by apply binary_round_aux_div.
    + rewrite Hcy. by apply binary_round_aux_div.
Qed.

(** [SFdiv] by a positive finite divisor is monotone on zeros and finite
    numbers of either sign. *)
Theorem SFdiv_le_mono x y mm em :
  SpecFloat.valid_binary prec emax x = true →
  SpecFloat.valid_binary prec emax y = true →
  SFfinite x = true → SFfinite y = true →
  SFleb x y = true →
  SFleb (SFdiv prec emax x (S754_finite false mm em))
        (SFdiv prec emax y (S754_finite false mm em)) = true.
Proof.
  intros Hvx Hvy Hfx Hfy Hle.
  destruct x as [sx| | |sx mx ex], y as [sy| | |sy my ey]; try done.
  - destruct (SFdiv_finite sy my ey false mm em) as (p & Hp & ->).
    destruct sy; [by destruct sx|]. cbn [SFdiv xorb]. by apply pack_zero_le.
  - destruct (SFdiv_finite sx mx ex false mm em) as (p & Hp & ->).
    destruct sx; [|by destruct sy]. cbn [SFdiv xorb]. by apply pack_le_zero.
  - simpl in Hvx, Hvy.
    destruct sx, sy; try done.
    + (* both negative *)
      assert (ey < ex ∨ ey = ex ∧ (my ≤ mx)%positive) as Hord.
      { unfold SFleb, SFcompare in Hle.
        destruct (Z.compare_spec ex ey); [right|done|left; lia].
        split; [done|]. fold (Pos.compare mx my) in Hle.
        destruct (Pos.compare_spec mx my); try done; lia. }
      destruct (SFdiv_magnitude_mono my ey mx ex mm em Hvy Hvx Hord)
        as (p1 & p2 & H1 & H2 & Hp & E1 & E2).
      rewrite E1, E2. by apply pack_le_neg.
    + destruct (SFdiv_finite true mx ex false mm em) as (p & Hp & ->).
      destruct (SFdiv_finite false my ey false mm em) as (p' & Hp' & ->).
      by apply pack_sign_le.
    + assert (ex < ey ∨ ex = ey ∧ (mx ≤ my)%positive) as Hord.
      { unfold SFleb, SFcompare in Hle.
        destruct (Z.compare_spec ex ey); [right|left; lia|done].
        split; [done|]. fold (Pos.compare mx my) in Hle.
        destruct (Pos.compare_spec mx my); try done; lia. }
      destruct (SFdiv_magnitude_mono mx ex my ey mm em Hvx Hvy Hord)
        as (p1 & p2 & H1 & H2 & Hp & E1 & E2).
      rewrite E1, E2. by apply pack_le_pos.
Qed.

End Binary64Division.

(** *** Primitive floats *)

Lemma is_finite_SFfinite (x : float) :
  PrimFloat.is_finite x = true → SFfinite (Prim2SF x) = true.
Proof.
  unfold PrimFloat.is_finite, PrimFloat.is_nan, PrimFloat.is_infinity.
  rewrite !FloatAxioms.eqb_spec, FloatAxioms.abs_spec.
  change (Prim2SF infinity) with (S754_infinity false).
  by destruct (Prim2SF x) as [[]|[]| |[] ? ?].
Qed.

(** Division of finite binary64 numbers by a positive one (finite or
    [+infinity]) never inverts an order. *)
Lemma float_div_le_mono (x y m : float) :
  PrimFloat.is_finite x = true → PrimFloat.is_finite y = true →
  PrimFloat.ltb 0 m = true →
  PrimFloat.leb x y = true →
  PrimFloat.leb (x / m) (y / m) = true.
Proof.
  intros Hx%is_finite_SFfinite Hy%is_finite_SFfinite Hm Hle.
  rewrite FloatAxioms.ltb_spec in Hm.
  rewrite FloatAxioms.leb_spec in Hle |- *. rewrite !FloatAxioms.div_spec.
  change (Prim2SF 0) with (S754_zero false) in Hm.
  pose proof (Prim2SF_valid x) as Hvx. pose proof (Prim2SF_valid y) as Hvy.
  destruct (Prim2SF m) as [[]|[]| |[] mm em]; try done.
  - (* the divisor is +infinity: both quotients are zeros *)
    by destruct (Prim2SF x) as [[]|[]| |[] ? ?],
                (Prim2SF y) as [[]|[]| |[] ? ?].
  - by apply SFdiv_le_mono.
Qed.

(** The float comparison is antisymmetric. *)
Lemma SFcompare_antisym x y :
  SFcompare y x = CompOpp <$> SFcompare x y.
Proof.
  destruct x as [[]|[]| |[] m1 e1], y as [[]|[]| |[] m2 e2]; try done;
    unfold SFcompare; rewrite (Z.compare_antisym e1 e2);
    fold (Pos.compare m1 m2); fold (Pos.compare m2 m1);
    rewrite (Pos.compare_antisym m1 m2);
    by destruct (e1 ?= e2), (m1 ?= m2)%positive.
Qed.

Lemma SFltb_SFleb x y :
  SFltb y x = true ↔ SFleb x y = false ∧ SFcompare x y ≠ None.
Proof.
  unfold SFltb, SFleb. rewrite (SFcompare_antisym x y).
  destruct (SFcompare x y) as [[]|]; simpl; naive_solver.
Qed.

Lemma SFfinite_compare x y :
  SFfinite x = true → SFfinite y = true → SFcompare x y ≠ None.
Proof. by destruct x as [[]|[]| |[] ? ?], y as [[]|[]| |[] ? ?]. Qed.

(** Hence a strict order of two quotients was a strict order before the
    division. *)
Lemma float_div_lt_reflect (x y m : float) :
  PrimFloat.is_finite x = true → PrimFloat.is_finite y = true →
  PrimFloat.ltb 0 m = true →
  PrimFloat.ltb (x / m) (y / m) = true →
  PrimFloat.ltb x y = true.
Proof.
  intros Hx Hy Hm Hlt.
  pose proof (float_div_le_mono y x m Hy Hx Hm) as Hmono.
  rewrite FloatAxioms.ltb_spec in Hlt |- *.
  rewrite !FloatAxioms.leb_spec in Hmono.
  apply SFltb_SFleb in Hlt as [Hlt _]. apply SFltb_SFleb.
  split; [|by apply SFfinite_compare; apply is_finite_SFfinite].
  destruct (SFleb (Prim2SF y) (Prim2SF x)); [|done].
  by rewrite Hmono in Hlt.
Qed.

(** ** Keyword mode: the in-place normalisation *)

Section Keyword.
Context {S : Type} `{ScoreOps S} {exn : Type}.
Variable MASTER_INDEX : string.
Variable C : Collaborators S exn.

(** The loop [for result in results: result.score = result.score / m]
    divides every object once for each of its occurrences in the list. *)
Lemma for_each_divided (m : S) (docs : list loc) (w : World S) :
  ∃ w', for_each (exn := exn) docs (λ result,
          let! h' := get_heap in
          set_score result (s_div (score (h' result)) m)) w
        = (Return tt, w')
    ∧ calls w' = calls w
    ∧ ∀ l, heap w' l
           = Nat.iter (count_occ Nat.eq_dec docs l) (divided m) (heap w l).
Proof.
  revert w. induction docs as [|doc docs IH]; intros w.
  - exists w. by simpl.
  - cbn [for_each]. unfold bind at 1. unfold bind at 1.
    unfold get_heap at 1, set_score at 1.
    edestruct IH as (w' & -> & Hcalls & Hheap). exists w'.
    split; [done|]. split; [done|]. intros l. rewrite Hheap. simpl.
    unfold heap_set. destruct (Nat.eq_dec doc l) as [->|Hne].
    + rewrite decide_True by done. by rewrite Nat.iter_succ_r.
    + by rewrite decide_False by done.
Qed.

(** What [keyword_search] does once BM25 has answered. *)
Lemma keyword_search_run (request : SearchRequest) (w : World S)
    (docs : list loc) (h1 : Heap S) :
  bm25_search C (query request) MASTER_INDEX (top_k request) (heap w)
    = (Return docs, h1) →
  ∃ w', keyword_search MASTER_INDEX C request w
        = (Return {| results := docs |}, w')
    ∧ calls w'
      = calls w ++ [Bm25Search (query request) MASTER_INDEX (top_k request)]
    ∧ ∀ l, heap w' l
           = match max_score_of h1 docs with
             | Some max_score =>
                 if s_gt max_score s_zero
                 then Nat.iter (count_occ Nat.eq_dec docs l)
                        (divided max_score) (h1 l)
                 else h1 l
             | None => h1 l
             end.
Proof.
  intros Hbm25. unfold keyword_search, bind at 1, call. rewrite Hbm25.
  unfold bind at 1, normalize_scores, bind at 1, get_heap at 1.
  unfold max_score_of, scores_of. cbn [heap].
  destruct ((λ doc, score (h1 doc)) <$> docs) as [|s0 rest] eqn:Hscores.
  { eexists. by split; [reflexivity|]. }
  destruct (s_gt (py_max s0 rest) s_zero).
  2: { eexists. by split; [reflexivity|]. }
  edestruct (for_each_divided (py_max s0 rest) docs) as (w' & -> & Hcalls & Hheap).
  exists w'. split; [done|]. split; [by rewrite Hcalls|]. exact Hheap.
Qed.

(** On pairwise distinct objects the loop is a map. *)
Lemma iter_divided_NoDup (m : S) (docs : list loc) (h : Heap S) (l : loc) :
  NoDup docs → l ∈ docs →
  Nat.iter (count_occ Nat.eq_dec docs l) (divided m) (h l) = divided m (h l).
Proof.
  intros Hnd Hl.
  apply NoDup_ListNoDup in Hnd. apply list_elem_of_In in Hl.
  by rewrite (proj1 (NoDup_count_occ' Nat.eq_dec docs) Hnd l Hl).
Qed.

(** C6. In keyword mode, when the BM25 result list is not empty and its
    maximum raw score is not positive, nothing is divided: the response
    lists the collaborator's objects and the heap is the one the
    collaborator left. *)
Theorem keyword_nonpositive_max_unscaled (request : SearchRequest)
    (w : World S) (docs : list loc) (h1 : Heap S) (max_score : S) :
  bm25_search C (query request) MASTER_INDEX (top_k request) (heap w)
    = (Return docs, h1) →
  max_score_of h1 docs = Some max_score →
  s_le max_score s_zero →
  keyword_search MASTER_INDEX C request w
  = (Return {| results := docs |},
     {| heap := h1;
        calls := calls w ++
          [Bm25Search (query request) MASTER_INDEX (top_k request)] |}).
Proof.
  intros Hbm25 Hmax Hle.
  unfold keyword_search, bind at 1, call. rewrite Hbm25.
  unfold bind at 1, normalize_scores, bind at 1, get_heap at 1.
  unfold max_score_of, scores_of in Hmax. cbn [heap].
  destruct ((λ doc, score (h1 doc)) <$> docs) as [|s0 rest]; [done|].
  injection Hmax as ->. unfold s_le in Hle. by rewrite Hle.
Qed.
End Keyword.

Section KeywordOrder.
Context {S : Type} `{ScoreOps S} {exn : Type}.
Variable MASTER_INDEX : string.
Variable C : Collaborators S exn.

(** With a positive maximum, every listed object (the objects being
    pairwise distinct) ends with its raw score divided by the maximum. *)
Lemma keyword_search_divides (request : SearchRequest) (w : World S)
    (docs : list loc) (h1 : Heap S) (max_score : S) :
  bm25_search C (query request) MASTER_INDEX (top_k request) (heap w)
    = (Return docs, h1) →
  NoDup docs →
  max_score_of h1 docs = Some max_score →
  s_gt max_score s_zero = true →
  ∃ w', keyword_search MASTER_INDEX C request w
        = (Return {| results := docs |}, w')
    ∧ ∀ l, l ∈ docs → heap w' l = divided max_score (h1 l).
Proof.
  intros Hbm25 Hnd Hmax Hpos.
  destruct (keyword_search_run MASTER_INDEX C request w docs h1 Hbm25)
    as (w' & Hrun & _ & Hheap).
  exists w'. split; [done|]. intros l Hl.
  rewrite Hheap, Hmax, Hpos. by apply iter_divided_NoDup.
Qed.
End KeywordOrder.

Section KeywordBinary64.
Context {exn : Type}.
Variable MASTER_INDEX : string.
Variable C : Collaborators float exn.

(** C10 (amended). Keyword-mode normalisation keeps the number of results
    and never inverts an order.  Scores are binary64 floats, compared with
    the float comparison [<=].  For a result list of pairwise distinct
    objects whose raw scores are finite (neither NaN nor an infinity) and
    whose maximum raw score is strictly positive, the response lists the
    same objects, and of any two items: when the first item's raw score is
    greater than or equal to the second's, so is its output score; when
    the first item's output score is strictly greater than the second's,
    so was its raw score. *)
Theorem keyword_order_preserved (request : SearchRequest) (w : World float)
    (docs : list loc) (h1 : Heap float) (max_score : float) :
  bm25_search C (query request) MASTER_INDEX (top_k request) (heap w)
    = (Return docs, h1) →
  NoDup docs →
  Forall (λ x, PrimFloat.is_finite x = true) (scores_of h1 docs) →
  max_score_of h1 docs = Some max_score →
  s_gt max_score s_zero = true →
  ∃ w', keyword_search MASTER_INDEX C request w
        = (Return {| results := docs |}, w')
    ∧ length (scores_of (heap w') docs) = length (scores_of h1 docs)
    ∧ ∀ a b, a ∈ docs → b ∈ docs →
        (PrimFloat.leb (score (h1 b)) (score (h1 a)) = true →
         PrimFloat.leb (score (heap w' b)) (score (heap w' a)) = true)
        ∧ (PrimFloat.ltb (score (heap w' b)) (score (heap w' a)) = true →
           PrimFloat.ltb (score (h1 b)) (score (h1 a)) = true).
Proof.
  intros Hbm25 Hnd Hfin Hmax Hpos.
  destruct (keyword_search_divides MASTER_INDEX C request w docs h1 max_score)
    as (w' & Hrun & Hheap); [done..|].
  exists w'. split; [done|]. split.
  { unfold scores_of. by rewrite !length_fmap. }
  assert (∀ l, l ∈ docs → PrimFloat.is_finite (score (h1 l)) = true) as Hf.
  { intros l Hl. apply (proj1 (Forall_forall _ _) Hfin). unfold scores_of.
    by apply (list_elem_of_fmap_2 (λ doc, score (h1 doc))). }
  intros a b Ha Hb. rewrite (Hheap a Ha), (Hheap b Hb). simpl. split.
  - intros Hle.
    apply float_div_le_mono; [by apply Hf..|exact Hpos|exact Hle].
  - intros Hlt.
    by apply (float_div_lt_reflect _ _ max_score); [apply Hf..|exact Hpos|].
Qed.
End KeywordBinary64.

Section KeywordRange.
Context {S : Type} `{ScoreOps S} (finite : S → Prop)
  `{!OrderedDivision S finite} {exn : Type}.
Variable MASTER_INDEX : string.
Variable C : Collaborators S exn.

(** With a strictly positive score in the list, the maximum exists, is
    strictly positive, is one of the scores and bounds them all. *)
Lemma max_score_positive (h : Heap S) (docs : list loc) (l : loc) :
  Forall finite (scores_of h docs) →
  l ∈ docs → s_gt (score (h l)) s_zero = true →
  ∃ max_score, max_score_of h docs = Some max_score
    ∧ finite max_score
    ∧ s_gt max_score s_zero = true
    ∧ max_score ∈ scores_of h docs
    ∧ ∀ x, x ∈ scores_of h docs → s_le x max_score.
Proof.
  intros Hfin Hl Hpos. unfold max_score_of.
  assert (score (h l) ∈ scores_of h docs) as Hin.
  { unfold scores_of. by apply (list_elem_of_fmap_2 (λ doc, score (h doc))). }
  destruct (scores_of h docs) as [|s0 rest]; [by apply elem_of_nil in Hin|].
  exists (py_max s0 rest). split; [done|].
  split; [by apply (py_max_finite finite)|]. split.
  - apply (s_le_gt_trans finite (score (h l))); [..|done].
    + by apply (proj1 (Forall_forall _ _) Hfin).
    + by apply (py_max_finite finite).
    + apply s_zero_finite.
    + by apply (py_max_upper_bound finite).
  - split; [apply py_max_elem_of|].
    intros x. by apply (py_max_upper_bound finite).
Qed.

(** In an arithmetic with the laws [OrderedDivision] (the exact
    rationals), for a non-empty BM25 result list of pairwise distinct
    objects with finite scores, at least one of them strictly positive:
    every output score is the raw score divided by the maximum raw score,
    every output score is at most 1, the maximum output score is 1, and
    the output score of a non-negative raw score is non-negative. *)
Lemma keyword_scores_normalized (request : SearchRequest) (w : World S)
    (docs : list loc) (h1 : Heap S) :
  bm25_search C (query request) MASTER_INDEX (top_k request) (heap w)
    = (Return docs, h1) →
  NoDup docs →
  Forall finite (scores_of h1 docs) →
  (∃ l, l ∈ docs ∧ s_gt (score (h1 l)) s_zero = true) →
  ∃ w' max_score,
    keyword_search MASTER_INDEX C request w
      = (Return {| results := docs |}, w')
    ∧ max_score_of h1 docs = Some max_score
    ∧ scores_of (heap w') docs
      = (λ x, s_div x max_score) <$> scores_of h1 docs
    ∧ Forall (λ y, s_le y s_one) (scores_of (heap w') docs)
    ∧ s_one ∈ scores_of (heap w') docs
    ∧ ∀ l, l ∈ docs → s_le s_zero (score (h1 l)) →
        s_le s_zero (score (heap w' l)) ∧ s_le (score (heap w' l)) s_one.
Proof.
  intros Hbm25 Hnd Hfin (l0 & Hl0 & Hpos0).
  destruct (max_score_positive h1 docs l0 Hfin Hl0 Hpos0)
    as (m & Hmax & Fm & Hpos & Hm & Hub).
  destruct (keyword_search_divides MASTER_INDEX C request w docs h1 m)
    as (w' & Hrun & Hheap); [done..|].
  assert (∀ l, l ∈ docs → s_le (score (heap w' l)) s_one) as Hle1.
  { intros l Hl. rewrite (Hheap l Hl). simpl.
    rewrite <-(s_div_self m Fm Hpos). apply s_div_monotone; [done|].
    apply Hub. unfold scores_of.
    by apply (list_elem_of_fmap_2 (λ doc, score (h1 doc))). }
  exists w', m. split; [done|]. split; [done|]. split; [|split; [|split]].
  - unfold scores_of. rewrite <-list_fmap_compose.
    apply list_fmap_ext. intros i l Hl. simpl.
    by rewrite (Hheap l (list_elem_of_lookup_2 _ _ _ Hl)).
  - unfold scores_of. apply Forall_fmap, Forall_forall. intros l Hl.
    exact (Hle1 l Hl).
  - unfold scores_of in Hm |- *.
    apply list_elem_of_fmap in Hm as (l & -> & Hl).
    apply list_elem_of_fmap. exists l. split; [|done].
    rewrite (Hheap l Hl). simpl. symmetry. by apply s_div_self.
  - intros l Hl Hnonneg. split; [|by apply Hle1].
    rewrite (Hheap l Hl). simpl.
    rewrite <-(s_zero_div m Hpos). by apply s_div_monotone.
Qed.
End KeywordRange.

Section KeywordExact.
Context {S : Type} `{ScoreOps S} `{!DivMonotone S} `{!DivStrict S}
  {exn : Type}.
Variable MASTER_INDEX : string.
Variable C : Collaborators S exn.

(** In an exact arithmetic the order of two scores is the same before and
    after the normalisation. *)
Lemma keyword_order_exact (request : SearchRequest) (w : World S)
    (docs : list loc) (h1 : Heap S) (max_score : S) :
  bm25_search C (query request) MASTER_INDEX (top_k request) (heap w)
    = (Return docs, h1) →
  NoDup docs →
  max_score_of h1 docs = Some max_score →
  s_gt max_score s_zero = true →
  ∃ w', keyword_search MASTER_INDEX C request w
        = (Return {| results := docs |}, w')
    ∧ ∀ a b, a ∈ docs → b ∈ docs →
        s_le (score (heap w' b)) (score (heap w' a))
        ↔ s_le (score (h1 b)) (score (h1 a)).
Proof.
  intros Hbm25 Hnd Hmax Hpos.
  destruct (keyword_search_divides MASTER_INDEX C request w docs h1 max_score)
    as (w' & Hrun & Hheap); [done..|].
  exists w'. split; [done|]. intros a b Ha Hb.
  rewrite (Hheap a Ha), (Hheap b Hb). simpl. split.
  - unfold s_le. intros Hdiv.
    destruct (s_gt (score (h1 b)) (score (h1 a))) eqn:Hba; [|done].
    by rewrite (s_div_gt _ _ max_score Hpos Hba) in Hdiv.
  - by apply s_div_le.
Qed.
End KeywordExact.

(** ** Identities in a response *)

Lemma identity_iter_divided {S} `{ScoreOps S} (m : S) (n : nat)
    (r : SearchResult S) :
  identity (Nat.iter n (divided m) r) = identity r.
Proof. induction n as [|n IH]; [done|]. by rewrite Nat.iter_succ. Qed.

Lemma submseteq_NoDup {A} (l k : list A) : l ⊆+ k → NoDup k → NoDup l.
Proof.
  intros Hsub Hk. apply submseteq_Permutation in Hsub as [k' Hperm].
  rewrite Hperm in Hk. by apply NoDup_app in Hk as [? _].
Qed.

Section Identities.
Context {S : Type} `{ScoreOps S} {exn : Type}.
Variable MASTER_INDEX : string.
Variable C : Collaborators S exn.

(** Keyword mode changes scores only. *)
Lemma keyword_search_identities (request : SearchRequest) (w : World S)
    (docs : list loc) (h1 : Heap S) :
  bm25_search C (query request) MASTER_INDEX (top_k request) (heap w)
    = (Return docs, h1) →
  ∃ w', keyword_search MASTER_INDEX C request w
        = (Return {| results := docs |}, w')
    ∧ ∀ l, identity (heap w' l) = identity (h1 l).
Proof.
  intros Hbm25.
  destruct (keyword_search_run MASTER_INDEX C request w docs h1 Hbm25)
    as (w' & Hrun & _ & Hheap).
  exists w'. split; [done|]. intros l. rewrite Hheap.
  destruct (max_score_of h1 docs) as [m|]; [|done].
  destruct (s_gt m s_zero); [|done]. apply identity_iter_divided.
Qed.

(** C5 (amended). The response of a mode has no two items with the same
    [(doc_id, chunk_index)] provided the collaborator the mode takes its
    response from has none: the vector store's answer in vector, keyword
    and engine-native hybrid mode; in reranked-hybrid mode the reranker,
    when it answers with a selection of the candidates it was given (the
    merged candidate list never has two items with the same pair). *)
Theorem response_unique_identities (mode : Mode) (request : SearchRequest)
    (w w' : World S) (response : SearchResponse) :
  duplicate_free_source mode C →
  run_mode MASTER_INDEX C mode request w = (Return response, w') →
  unique_identities (heap w') (results response).
Proof.
  destruct mode; simpl; intros Hsrc Hrun.
  - unfold vector_search, bind, call, ret in Hrun.
    destruct (embed_query C (query request) (heap w)) as [[qv|e] h1];
      [|done].
    cbn [heap] in Hrun.
    destruct (similarity_search C qv MASTER_INDEX (top_k request) h1)
      as [[docs|e] h2] eqn:Hsim; [|done].
    injection Hrun as <- <-. by eapply Hsrc.
  - destruct (bm25_search C (query request) MASTER_INDEX (top_k request)
                (heap w)) as [[docs|e] h1] eqn:Hbm25.
    + destruct (keyword_search_identities request w docs h1 Hbm25)
        as (w'' & Hrun' & Hid).
      rewrite Hrun' in Hrun. injection Hrun as <- <-. simpl.
      unfold unique_identities, identities_of.
      rewrite (list_fmap_ext _ (λ doc, identity (h1 doc)) docs)
        by (intros; apply Hid).
      by eapply Hsrc.
    + unfold keyword_search, bind, call in Hrun. by rewrite Hbm25 in Hrun.
  - unfold hybrid_search_native, try_except, bind, call, ret, raise in Hrun.
    destruct (embed_query C (query request) (heap w)) as [[qv|e] h1];
      [|done].
    cbn [heap] in Hrun.
    destruct (hybrid_search_with_pipeline C (query request) qv MASTER_INDEX
                "hybrid-search-pipeline" (top_k request) h1)
      as [[docs|e] h2] eqn:Hhybrid; [|done].
    injection Hrun as <- <-. by eapply Hsrc.
  - unfold hybrid_search_reranked, try_except, bind, call, ret, raise,
      get_heap in Hrun.
    destruct (embed_query C (query request) (heap w)) as [[qv|e] h1];
      [|done].
    cbn [heap] in Hrun.
    destruct (similarity_search C qv MASTER_INDEX
                (expanded_k (top_k request)) h1) as [[vs|e] h2]; [|done].
    cbn [heap] in Hrun.
    destruct (bm25_search C (query request) MASTER_INDEX
                (expanded_k (top_k request)) h2) as [[bs|e] h3]; [|done].
    cbn [heap] in Hrun.
    pose proof (combine_docs_unique h3 vs bs) as Huniq.
    destruct (combine_docs h3 vs bs) as [|d ds].
    + injection Hrun as <- <-. apply NoDup_nil_2.
    + cbn [heap] in Hrun.
      destruct (rerank_results C (query request) (d :: ds) (top_k request) h3)
        as [[out|e] h4] eqn:Hr; [|done].
      injection Hrun as <- <-. simpl.
      eapply submseteq_NoDup; [by eapply Hsrc|done].
Qed.
End Identities.

(** * The scenarios of the specification, and instances *)

(** ** Reranked-hybrid mode *)

(** Query "alpha", [top_k = 3]: the BM25 item for [(d1, 0)] is dropped, the
    reranker receives the three remaining candidates and [top_k = 3]. *)
Example alpha_merge :
  combine_docs alpha_heap [0; 1]%nat [2; 3]%nat = [0; 1; 3]%nat.
Proof. vm_compute. reflexivity. Qed.

Example alpha_reranked :
  hybrid_search_reranked "master" alpha_collaborators alpha_request
    (world_of alpha_heap)
  = (Return {| results := [0; 1; 3]%nat |},
     {| heap := alpha_heap;
        calls := [EmbedQuery "alpha";
                  SimilaritySearch [0.5%float] "master" 30;
                  Bm25Search "alpha" "master" 30;
                  RerankResults "alpha" [0; 1; 3]%nat 3] |}).
Proof. vm_compute. reflexivity. Qed.

Lemma reranked_empty_short_circuit_witness :
  hybrid_search_reranked "master" empty_collaborators alpha_request
    (world_of alpha_heap)
  = (Return {| results := [] |},
     {| heap := alpha_heap;
        calls := calls (world_of alpha_heap) ++
          [EmbedQuery (query alpha_request);
           SimilaritySearch [0.5%float] "master"
             (expanded_k (top_k alpha_request));
           Bm25Search (query alpha_request) "master"
             (expanded_k (top_k alpha_request))] |}).
Proof.
  apply (reranked_empty_short_circuit "master" empty_collaborators
           alpha_request (world_of alpha_heap) [0.5%float]
           alpha_heap alpha_heap alpha_heap); reflexivity.
Defined.

Lemma reranked_calls_reranker_once_witness :
  combine_docs alpha_heap [0; 1]%nat [2; 3]%nat ≠ []
  ∧ hybrid_search_reranked "master" alpha_collaborators alpha_request
      (world_of alpha_heap)
    = let combined_docs := combine_docs alpha_heap [0; 1]%nat [2; 3]%nat in
      let reranked :=
        rerank_results alpha_collaborators (query alpha_request) combined_docs
          (top_k alpha_request) alpha_heap in
      (match reranked.1 with
       | Return reranked_docs => Return {| results := reranked_docs |}
       | Raise e => Raise e
       end,
       {| heap := reranked.2;
          calls := calls (world_of alpha_heap) ++
            [EmbedQuery (query alpha_request);
             SimilaritySearch [0.5%float] "master"
               (expanded_k (top_k alpha_request));
             Bm25Search (query alpha_request) "master"
               (expanded_k (top_k alpha_request));
             RerankResults (query alpha_request) combined_docs
               (top_k alpha_request)] |}).
Proof.
  assert (combine_docs alpha_heap [0; 1]%nat [2; 3]%nat ≠ []) as Hne.
  { vm_compute. discriminate. }
  split; [exact Hne|].
  apply (reranked_calls_reranker_once "master" alpha_collaborators
           alpha_request (world_of alpha_heap) [0.5%float] [0; 1]%nat
           [2; 3]%nat alpha_heap alpha_heap alpha_heap);
    [reflexivity..|exact Hne].
Defined.

(** ** Engine-native hybrid mode *)

Lemma native_hybrid_propagates_witness :
  hybrid_search_native "master" failing_collaborators alpha_request
    (world_of alpha_heap)
  = (Raise "ConnectionError",
     {| heap := alpha_heap;
        calls := calls (world_of alpha_heap) ++
          [EmbedQuery (query alpha_request);
           HybridSearchWithPipeline (query alpha_request) [0.5%float] "master"
             "hybrid-search-pipeline" (top_k alpha_request)] |}).
Proof.
  apply (native_hybrid_propagates "master" failing_collaborators alpha_request
           (world_of alpha_heap) [0.5%float] "ConnectionError"
           alpha_heap alpha_heap); reflexivity.
Defined.

(** ** Request validation *)

Lemma invalid_request_rejected_witness :
  handle_search "master" alpha_collaborators VectorMode
    {| query := ""; top_k := 0 |} (world_of alpha_heap)
  = (inl ClientInputError, world_of alpha_heap).
Proof.
  apply (invalid_request_rejected "master" alpha_collaborators VectorMode
           {| query := ""; top_k := 0 |} (world_of alpha_heap)).
  left. reflexivity.
Defined.

(** A request of valid shape reaches the service. *)
Example valid_request_served :
  (handle_search "master" alpha_collaborators VectorMode alpha_request
     (world_of alpha_heap)).1
  = inr (Return {| results := [0; 1]%nat |}).
Proof. vm_compute. reflexivity. Qed.

(** ** Keyword mode *)

(** Raw scores [12.0, 6.0, 0.0] are normalised to [1.0, 0.5, 0.0]. *)
Example keyword_scenario :
  scores_of
    (heap (keyword_search "master" (bm25_only [0; 1; 2]%nat) keyword_request
             (world_of keyword_heap)).2)
    [0; 1; 2]%nat
  = [1; 0.5; 0]%float.
Proof. vm_compute. reflexivity. Qed.

(** The same object listed twice is divided twice: 12.0 / 12.0 / 12.0. *)
Example keyword_shared_object :
  scores_of
    (heap (keyword_search "master" (bm25_only [0; 0]%nat) keyword_request
             (world_of keyword_heap)).2)
    [0; 0]%nat
  = [0.083333333333333329; 0.083333333333333329]%float.
Proof. vm_compute. reflexivity. Qed.

(** C2. The code breaks the range that the claim and the docstring of
    [keyword_search] ("scores are normalised to the 0~1 range") state: on
    the raw scores [12.0, -3.0], a non-empty result list with a strictly
    positive score, the output scores are [1.0, -0.25], and -0.25 is
    strictly below 0. *)
Lemma keyword_negative_score_leaves_range :
  let run := keyword_search "master" (bm25_only [0; 1]%nat) keyword_request
               (world_of mixed_sign_heap) in
  run.1 = Return {| results := [0; 1]%nat |}
  ∧ scores_of mixed_sign_heap [0; 1]%nat = [12; -3]%float
  ∧ PrimFloat.ltb 0 (score (mixed_sign_heap 0%nat)) = true
  ∧ scores_of (heap run.2) [0; 1]%nat = [1; -0.25]%float
  ∧ PrimFloat.ltb (score (heap run.2 1%nat)) 0 = true
  ∧ PrimFloat.leb 0 (score (heap run.2 1%nat)) = false.
Proof. vm_compute. repeat split; reflexivity. Qed.

Lemma NoDup_three : NoDup [0; 1; 2]%nat.
Proof. compute_done. Qed.

Lemma keyword_scores_normalized_witness :
  ∃ w' max_score,
    keyword_search "master" (bm25_only [0; 1; 2]%nat) keyword_request
      (world_of exact_heap)
    = (Return {| results := [0; 1; 2]%nat |}, w')
    ∧ max_score_of exact_heap [0; 1; 2]%nat = Some max_score
    ∧ scores_of (heap w') [0; 1; 2]%nat
      = (λ x, s_div x max_score) <$> scores_of exact_heap [0; 1; 2]%nat
    ∧ Forall (λ y, s_le y s_one) (scores_of (heap w') [0; 1; 2]%nat)
    ∧ s_one ∈ scores_of (heap w') [0; 1; 2]%nat
    ∧ ∀ l, l ∈ [0; 1; 2]%nat → s_le s_zero (score (exact_heap l)) →
        s_le s_zero (score (heap w' l)) ∧ s_le (score (heap w' l)) s_one.
Proof.
  apply (@keyword_scores_normalized Qc Qc_ops (λ _, True) Qc_ordered_division
           string "master" (bm25_only [0; 1; 2]%nat) keyword_request
           (world_of exact_heap) [0; 1; 2]%nat exact_heap).
  - reflexivity.
  - exact NoDup_three.
  - repeat constructor.
  - exists 0%nat. split; [left|reflexivity].
Defined.

(** In exact arithmetic the scenario gives 1, 1/2 and 0. *)
Example keyword_scenario_exact :
  this <$> scores_of
    (heap (keyword_search "master" (bm25_only [0; 1; 2]%nat) keyword_request
             (world_of exact_heap)).2)
    [0; 1; 2]%nat
  = [1; 1 # 2; 0]%Q.
Proof. vm_compute. reflexivity. Qed.

Lemma keyword_nonpositive_max_unscaled_witness :
  keyword_search "master" (bm25_only [0; 1]%nat) keyword_request
    (world_of nonpositive_heap)
  = (Return {| results := [0; 1]%nat |},
     {| heap := nonpositive_heap;
        calls := calls (world_of nonpositive_heap) ++
          [Bm25Search (query keyword_request) "master"
             (top_k keyword_request)] |}).
Proof.
  apply (keyword_nonpositive_max_unscaled "master" (bm25_only [0; 1]%nat)
           keyword_request (world_of nonpositive_heap) [0; 1]%nat
           nonpositive_heap 0%float); reflexivity.
Defined.

(** C10 fails as stated in binary64: the raw scores 1.5000000000000004 and
    1.5000000000000002 differ, their quotients by the maximum 3.0 are the
    same float.  The output score of item 2 is greater than or equal to
    that of item 1, its raw score is not. *)
Lemma keyword_rounding_counterexample :
  let run := keyword_search "master" (bm25_only [0; 1; 2]%nat) keyword_request
               (world_of rounding_heap) in
  run.1 = Return {| results := [0; 1; 2]%nat |}
  ∧ scores_of rounding_heap [0; 1; 2]%nat
    = [3; 1.5000000000000004; 1.5000000000000002]%float
  ∧ Forall (λ x, PrimFloat.is_finite x = true)
      (scores_of rounding_heap [0; 1; 2]%nat)
  ∧ scores_of (heap run.2) [0; 1; 2]%nat
    = [1; 0.5000000000000001; 0.5000000000000001]%float
  ∧ PrimFloat.leb (score (heap run.2 1%nat)) (score (heap run.2 2%nat)) = true
  ∧ PrimFloat.leb (score (rounding_heap 1%nat)) (score (rounding_heap 2%nat))
    = false
  ∧ PrimFloat.ltb (score (rounding_heap 2%nat)) (score (rounding_heap 1%nat))
    = true.
Proof. vm_compute. repeat split; try reflexivity. repeat constructor. Qed.

Lemma keyword_order_preserved_witness :
  ∃ w',
    keyword_search "master" (bm25_only [0; 1; 2]%nat) keyword_request
      (world_of keyword_heap)
    = (Return {| results := [0; 1; 2]%nat |}, w')
    ∧ length (scores_of (heap w') [0; 1; 2]%nat)
      = length (scores_of keyword_heap [0; 1; 2]%nat)
    ∧ ∀ a b, a ∈ [0; 1; 2]%nat → b ∈ [0; 1; 2]%nat →
        (PrimFloat.leb (score (keyword_heap b)) (score (keyword_heap a)) = true →
         PrimFloat.leb (score (heap w' b)) (score (heap w' a)) = true)
        ∧ (PrimFloat.ltb (score (heap w' b)) (score (heap w' a)) = true →
           PrimFloat.ltb (score (keyword_heap b)) (score (keyword_heap a))
           = true).
Proof.
  apply (keyword_order_preserved "master" (bm25_only [0; 1; 2]%nat)
           keyword_request (world_of keyword_heap) [0; 1; 2]%nat keyword_heap
           12%float).
  - reflexivity.
  - exact NoDup_three.
  - repeat constructor.
  - reflexivity.
  - reflexivity.
Defined.

(** ** Duplicates *)

(** C5 fails as stated: when the vector store answers with two objects for
    [(d1, 0)], vector, keyword and engine-native hybrid mode return both. *)
Lemma duplicate_identities_counterexample :
  let identities (run : Outcome string SearchResponse * World float) :=
    match run.1 with
    | Return response => identities_of (heap run.2) (results response)
    | Raise _ => []
    end in
  identities (vector_search "master" duplicate_collaborators alpha_request
                (world_of alpha_heap)) = [("d1", 0); ("d1", 0)]
  ∧ identities (keyword_search "master" duplicate_collaborators alpha_request
                  (world_of alpha_heap)) = [("d1", 0); ("d1", 0)]
  ∧ identities (hybrid_search_native "master" duplicate_collaborators
                  alpha_request (world_of alpha_heap))
    = [("d1", 0); ("d1", 0)]
  ∧ ¬ NoDup [("d1", 0); ("d1", 0)].
Proof.
  vm_compute. repeat split; try reflexivity.
  intros Hnd. apply NoDup_cons in Hnd as [Hnot _]. apply Hnot. left.
Qed.

(** The reranker of the scenario keeps the first [top_k] candidates: a
    selection. *)
Lemma fixed_reranker_selects {S} (query_vec : list S) (vs bs : list loc)
    (hybrid : Outcome string (list loc)) :
  duplicate_free_source RerankedHybridMode (fixed query_vec vs bs hybrid).
Proof.
  intros q docs k h out h' Hr. simpl in Hr. injection Hr as <- <-.
  unfold identities_of. rewrite fmap_take. apply submseteq_take.
Qed.

Lemma response_unique_identities_witness :
  unique_identities alpha_heap [0; 1; 3]%nat.
Proof.
  apply (response_unique_identities "master" alpha_collaborators
           RerankedHybridMode alpha_request (world_of alpha_heap)
           {| heap := alpha_heap;
              calls := [EmbedQuery "alpha";
                        SimilaritySearch [0.5%float] "master" 30;
                        Bm25Search "alpha" "master" 30;
                        RerankResults "alpha" [0; 1; 3]%nat 3] |}
           {| results := [0; 1; 3]%nat |}).
  - apply fixed_reranker_selects.
  - vm_compute. reflexivity.
Defined.

(** * Further properties *)

(** ** The candidate list of reranked-hybrid mode *)

Section FirstSeenMore.
Context {K : Type} `{EqDecision K} (key : loc → K).

Lemma first_seen_sublist (seen : list K) (docs : list loc) :
  first_seen key seen docs `sublist_of` docs.
Proof.
  revert seen. induction docs as [|doc docs IH]; intros seen; simpl.
  - constructor.
  - destruct (decide (key doc ∈ seen)).
    + by apply sublist_cons.
    + by apply sublist_skip.
Qed.

(** Every key of the input that was not seen before is kept once. *)
Lemma first_seen_keys (seen : list K) (docs : list loc) (k : K) :
  k ∈ key <$> first_seen key seen docs ↔ k ∈ key <$> docs ∧ k ∉ seen.
Proof.
  revert seen. induction docs as [|doc docs IH]; intros seen; simpl.
  - rewrite elem_of_nil. tauto.
  - destruct (decide (key doc ∈ seen)) as [Hin|Hin].
    + rewrite IH, elem_of_cons. split; [tauto|].
      intros [[->|?] ?]; [done|tauto].
    + rewrite fmap_cons, !elem_of_cons, IH, elem_of_cons.
      destruct (decide (k = key doc)) as [->|Hne]; tauto.
Qed.

(** A list without repeated keys, none of them seen, is kept whole. *)
Lemma first_seen_all (seen : list K) (docs : list loc) :
  NoDup (key <$> docs) → (∀ d, d ∈ docs → key d ∉ seen) →
  first_seen key seen docs = docs.
Proof.
  revert seen. induction docs as [|doc docs IH]; intros seen Hnd Hseen;
    simpl; [done|].
  rewrite fmap_cons in Hnd. apply NoDup_cons in Hnd as [Hnot Hnd].
  rewrite decide_False by (apply Hseen; by left).
  f_equal. apply IH; [done|]. intros d Hd. rewrite elem_of_cons.
  intros [Heq|Hin].
  - apply Hnot. rewrite <-Heq. by apply list_elem_of_fmap_2.
  - apply (Hseen d); [by right|done].
Qed.
End FirstSeenMore.

(** X2. The candidate list of reranked-hybrid mode never holds two items
    with the same [(doc_id, chunk_index)]; it is made of items of the two
    result lists in their order (vector results before BM25 results), so
    it is never longer than the two lists together. *)
Theorem combine_docs_selection {S} (h : Heap S)
    (vector_results bm25_results : list loc) :
  unique_identities h (combine_docs h vector_results bm25_results)
  ∧ combine_docs h vector_results bm25_results
      `sublist_of` vector_results ++ bm25_results
  ∧ (length (combine_docs h vector_results bm25_results)
     ≤ length vector_results + length bm25_results)%nat.
Proof.
  assert (combine_docs h vector_results bm25_results
            `sublist_of` vector_results ++ bm25_results) as Hsub.
  { rewrite combine_docs_merge_spec. apply first_seen_sublist. }
  split; [apply combine_docs_unique|]. split; [done|].
  rewrite <-length_app. by apply sublist_length.
Qed.

(** X3. No identity is lost by the merge: a [(doc_id, chunk_index)] is the
    identity of a candidate exactly when it is the identity of a vector
    or of a BM25 result. *)
Theorem combine_docs_identities {S} (h : Heap S)
    (vector_results bm25_results : list loc) (k : string * Z) :
  k ∈ identities_of h (combine_docs h vector_results bm25_results)
  ↔ k ∈ identities_of h vector_results ∨ k ∈ identities_of h bm25_results.
Proof.
  rewrite combine_docs_merge_spec. unfold merge_spec, identities_of.
  rewrite (first_seen_keys (λ doc, identity (h doc))).
  rewrite fmap_app, elem_of_app, elem_of_nil. tauto.
Qed.

Lemma combine_docs_nil {S} (h : Heap S) (vector_results bm25_results : list loc) :
  combine_docs h vector_results bm25_results = []
  ↔ vector_results = [] ∧ bm25_results = [].
Proof.
  rewrite combine_docs_merge_spec. unfold merge_spec. split.
  - destruct vector_results as [|v vs]; [destruct bm25_results as [|b bs]|];
      [done|..]; cbn [app first_seen]; case_decide as Hin; try done;
      by apply elem_of_nil in Hin.
  - by intros [-> ->].
Qed.

(** X4. Vector results without repeated identities stay at the front of
    the candidate list, whole and in order; behind them come BM25 results,
    in order, none of which has the identity of a vector result.  With no
    BM25 result the candidates are the vector results. *)
Theorem combine_docs_vector_prefix {S} (h : Heap S)
    (vector_results bm25_results : list loc) :
  unique_identities h vector_results →
  ∃ kept,
    combine_docs h vector_results bm25_results = vector_results ++ kept
    ∧ kept `sublist_of` bm25_results
    ∧ (∀ b, b ∈ kept → identity (h b) ∉ identities_of h vector_results)
    ∧ (bm25_results = [] → kept = []).
Proof.
  intros Huniq. rewrite combine_docs_merge_spec. unfold merge_spec.
  rewrite first_seen_app.
  rewrite (first_seen_all _ [] vector_results Huniq)
    by (intros; apply not_elem_of_nil).
  eexists. split; [done|]. split; [apply first_seen_sublist|]. split.
  - intros b Hb Hin. apply first_seen_elem_of in Hb as [_ Hb].
    apply Hb. rewrite elem_of_app. by left.
  - by intros ->.
Qed.

(** X1. The deduplication key [f"{doc_id}_{chunk_index}"] never confuses
    two candidates: two results have the same key exactly when they have
    the same [doc_id] and the same [chunk_index], whatever underscores and
    digits the [doc_id]s contain. *)
Theorem doc_key_no_collision {S} (r1 r2 : SearchResult S) :
  doc_key r1 = doc_key r2
  ↔ doc_id (metadata r1) = doc_id (metadata r2)
    ∧ chunk_index (metadata r1) = chunk_index (metadata r2).
Proof.
  rewrite doc_key_identity. unfold identity. split.
  - by intros [= -> ->].
  - by intros [-> ->].
Qed.

(** Keys that look alike: document "a_1" chunk 2 and document "a" chunk 12. *)
Example doc_key_underscores :
  doc_key (mk_result "a_1" 2 0%float) = "a_1_2"
  ∧ doc_key (mk_result "a" 12 0%float) = "a_12"
  ∧ doc_key (mk_result "a_1" (-2) 0%float) = "a_1_-2".
Proof. vm_compute. done. Qed.

(** X6. The number of candidates asked of each search is never below 30,
    never below [top_k], and grows with [top_k]: it is 30 up to
    [top_k = 10] and three times [top_k] from there on. *)
Theorem expanded_k_bounds (top_k : Z) :
  30 ≤ expanded_k top_k
  ∧ top_k ≤ expanded_k top_k
  ∧ (top_k ≤ 10 → expanded_k top_k = 30)
  ∧ (10 ≤ top_k → expanded_k top_k = 3 * top_k)
  ∧ ∀ top_k', top_k ≤ top_k' → expanded_k top_k ≤ expanded_k top_k'.
Proof. unfold expanded_k. repeat split; intros; lia. Qed.

(** ** Calls, failures and writes of the four modes *)

Section Modes.
Context {S : Type} `{ScoreOps S} {exn : Type}.
Variable MASTER_INDEX : string.
Variable C : Collaborators S exn.

(** X5. In reranked-hybrid mode the reranker is skipped only when both
    searches return nothing: after the three calls embed, similarity
    search and BM25 search, the reranker is called (once, with the merged
    candidates) as soon as one of the two result lists is not empty. *)
Theorem reranked_skips_reranker_iff_empty (request : SearchRequest)
    (w : World S) (query_vec : list S) (vector_results bm25_results : list loc)
    (h1 h2 h3 : Heap S) :
  embed_query C (query request) (heap w) = (Return query_vec, h1) →
  similarity_search C query_vec MASTER_INDEX (expanded_k (top_k request)) h1
    = (Return vector_results, h2) →
  bm25_search C (query request) MASTER_INDEX (expanded_k (top_k request)) h2
    = (Return bm25_results, h3) →
  calls (hybrid_search_reranked MASTER_INDEX C request w).2
  = calls w ++
      [EmbedQuery (query request);
       SimilaritySearch query_vec MASTER_INDEX (expanded_k (top_k request));
       Bm25Search (query request) MASTER_INDEX (expanded_k (top_k request))]
      ++ match vector_results, bm25_results with
         | [], [] => []
         | _, _ =>
             [RerankResults (query request)
                (combine_docs h3 vector_results bm25_results) (top_k request)]
         end.
Proof.
  intros Hembed Hsim Hbm25.
  unfold hybrid_search_reranked, try_except, bind, call, ret, raise, get_heap.
  rewrite Hembed. cbn [heap]. rewrite Hsim. cbn [heap]. rewrite Hbm25.
  cbn [heap calls].
  destruct (combine_docs h3 vector_results bm25_results) as [|d ds] eqn:Hc.
  - apply combine_docs_nil in Hc as [-> ->]. simpl.
    by rewrite <-!app_assoc.
  - assert (match vector_results, bm25_results with
            | [], [] => []
            | _, _ => [RerankResults (S := S) (query request) (d :: ds)
                         (top_k request)]
            end = [RerankResults (query request) (d :: ds) (top_k request)])
      as ->.
    { by destruct vector_results, bm25_results. }
    simpl.
    destruct (rerank_results C (query request) (d :: ds) (top_k request) h3)
      as [[out|e] h4]; simpl; by rewrite <-!app_assoc.
Qed.

(** X7. Vector, engine-native hybrid and reranked-hybrid mode start with
    the embedding model: when it raises, the mode raises the same
    exception and neither the vector store nor the reranker is called. *)
Theorem embedding_failure_stops_mode (mode : Mode) (request : SearchRequest)
    (w : World S) (e : exn) (h1 : Heap S) :
  mode ≠ KeywordMode →
  embed_query C (query request) (heap w) = (Raise e, h1) →
  run_mode MASTER_INDEX C mode request w
  = (Raise e,
     {| heap := h1; calls := calls w ++ [EmbedQuery (query request)] |}).
Proof.
  intros Hmode Hembed.
  destruct mode; [|done|..]; simpl;
    unfold vector_search, hybrid_search_native, hybrid_search_reranked,
      try_except, bind, call, raise;
    by rewrite Hembed.
Qed.

(** X11. Keyword mode makes one collaborator call, the BM25 search with the
    caller's [top_k]: it never calls the embedding model, the similarity
    search or the reranker.  When the BM25 search raises, the exception
    reaches the caller; when it finds nothing, the response is empty and
    no object is written. *)
Theorem keyword_search_single_call (request : SearchRequest) (w : World S) :
  calls (keyword_search MASTER_INDEX C request w).2
    = calls w ++ [Bm25Search (query request) MASTER_INDEX (top_k request)]
  ∧ (∀ e h1,
       bm25_search C (query request) MASTER_INDEX (top_k request) (heap w)
         = (Raise e, h1) →
       (keyword_search MASTER_INDEX C request w).1 = Raise e
       ∧ heap (keyword_search MASTER_INDEX C request w).2 = h1)
  ∧ (∀ h1,
       bm25_search C (query request) MASTER_INDEX (top_k request) (heap w)
         = (Return [], h1) →
       (keyword_search MASTER_INDEX C request w).1 = Return {| results := [] |}
       ∧ heap (keyword_search MASTER_INDEX C request w).2 = h1).
Proof.
  destruct (bm25_search C (query request) MASTER_INDEX (top_k request) (heap w))
    as [[docs|e] h1] eqn:Hbm25.
  - destruct (keyword_search_run MASTER_INDEX C request w docs h1 Hbm25)
      as (w' & Hrun & Hcalls & Hheap).
    rewrite Hrun. split; [done|]. split; [done|].
    intros h1' [= -> ->]. split; [done|].
    unfold keyword_search, bind, call, normalize_scores, get_heap, ret in Hrun.
    rewrite Hbm25 in Hrun. simpl in Hrun. by injection Hrun as <-.
  - unfold keyword_search, bind, call. rewrite Hbm25. simpl.
    split; [done|]. split; [|done]. by intros e' h1' [= -> ->].
Qed.

(** X8. A failing search aborts the mode, with nothing returned in its
    place: in vector mode a failure of the similarity search, in
    reranked-hybrid mode a failure of the similarity search (the BM25
    search is then not called) or of the BM25 search (the vector results
    are dropped, the reranker is not called) reaches the caller as the
    same exception. *)
Theorem search_failure_propagates (request : SearchRequest) (w : World S)
    (query_vec : list S) (h1 : Heap S) :
  embed_query C (query request) (heap w) = (Return query_vec, h1) →
  (∀ e h2,
     similarity_search C query_vec MASTER_INDEX (top_k request) h1
       = (Raise e, h2) →
     vector_search MASTER_INDEX C request w
     = (Raise e,
        {| heap := h2;
           calls := calls w ++
             [EmbedQuery (query request);
              SimilaritySearch query_vec MASTER_INDEX (top_k request)] |}))
  ∧ (∀ e h2,
       similarity_search C query_vec MASTER_INDEX
         (expanded_k (top_k request)) h1 = (Raise e, h2) →
       hybrid_search_reranked MASTER_INDEX C request w
       = (Raise e,
          {| heap := h2;
             calls := calls w ++
               [EmbedQuery (query request);
                SimilaritySearch query_vec MASTER_INDEX
                  (expanded_k (top_k request))] |}))
  ∧ (∀ vector_results e h2 h3,
       similarity_search C query_vec MASTER_INDEX
         (expanded_k (top_k request)) h1 = (Return vector_results, h2) →
       bm25_search C (query request) MASTER_INDEX
         (expanded_k (top_k request)) h2 = (Raise e, h3) →
       hybrid_search_reranked MASTER_INDEX C request w
       = (Raise e,
          {| heap := h3;
             calls := calls w ++
               [EmbedQuery (query request);
                SimilaritySearch query_vec MASTER_INDEX
                  (expanded_k (top_k request));
                Bm25Search (query request) MASTER_INDEX
                  (expanded_k (top_k request))] |})).
Proof.
  intros Hembed.
  unfold vector_search, hybrid_search_reranked, try_except, bind, call, ret,
    raise, get_heap.
  rewrite Hembed. cbn [heap calls]. repeat split.
  - intros e h2 ->. by rewrite <-!app_assoc.
  - intros e h2 ->. by rewrite <-!app_assoc.
  - intros vs e h2 h3 -> . cbn [heap calls]. intros ->.
    by rewrite <-!app_assoc.
Qed.

(** X9. Vector mode wraps the answer of the similarity search as it is:
    the search is asked for the caller's [top_k] on [MASTER_INDEX] with
    the embedded query, and the response lists the objects it returned,
    in its order. *)
Theorem vector_search_verbatim (request : SearchRequest) (w : World S)
    (query_vec : list S) (docs : list loc) (h1 h2 : Heap S) :
  embed_query C (query request) (heap w) = (Return query_vec, h1) →
  similarity_search C query_vec MASTER_INDEX (top_k request) h1
    = (Return docs, h2) →
  vector_search MASTER_INDEX C request w
  = (Return {| results := docs |},
     {| heap := h2;
        calls := calls w ++
          [EmbedQuery (query request);
           SimilaritySearch query_vec MASTER_INDEX (top_k request)] |}).
Proof.
  intros Hembed Hsim. unfold vector_search, bind, call, ret.
  rewrite Hembed. cbn [heap calls]. rewrite Hsim.
  by rewrite <-!app_assoc.
Qed.

(** X10. Engine-native hybrid mode wraps the answer of the pipeline search
    as it is: the vector store is asked once, with the query text, the
    embedded query, the pipeline "hybrid-search-pipeline" and the caller's
    [top_k], and the response lists the objects it returned, in its
    order. *)
Theorem native_hybrid_verbatim (request : SearchRequest) (w : World S)
    (query_vec : list S) (docs : list loc) (h1 h2 : Heap S) :
  embed_query C (query request) (heap w) = (Return query_vec, h1) →
  hybrid_search_with_pipeline C (query request) query_vec MASTER_INDEX
    "hybrid-search-pipeline" (top_k request) h1 = (Return docs, h2) →
  hybrid_search_native MASTER_INDEX C request w
  = (Return {| results := docs |},
     {| heap := h2;
        calls := calls w ++
          [EmbedQuery (query request);
           HybridSearchWithPipeline (query request) query_vec MASTER_INDEX
             "hybrid-search-pipeline" (top_k request)] |}).
Proof.
  intros Hembed Hhybrid.
  unfold hybrid_search_native, try_except, bind, call, ret.
  rewrite Hembed. cbn [heap calls]. rewrite Hhybrid.
  by rewrite <-!app_assoc.
Qed.
End Modes.

Section Writes.
Context {S : Type} `{ScoreOps S} {exn : Type}.
Variable MASTER_INDEX : string.
Variable C : Collaborators S exn.

(** X12. Keyword mode writes scores only: after the search every object
    has the metadata and the payload the collaborator gave it, and an
    object that is not in the result list is left as it was. *)
Theorem keyword_search_writes_scores_only (request : SearchRequest)
    (w : World S) (docs : list loc) (h1 : Heap S) :
  bm25_search C (query request) MASTER_INDEX (top_k request) (heap w)
    = (Return docs, h1) →
  ∃ w', keyword_search MASTER_INDEX C request w
        = (Return {| results := docs |}, w')
    ∧ (∀ l, metadata (heap w' l) = metadata (h1 l)
            ∧ payload (heap w' l) = payload (h1 l))
    ∧ (∀ l, l ∉ docs → heap w' l = h1 l).
Proof.
  intros Hbm25.
  destruct (keyword_search_run MASTER_INDEX C request w docs h1 Hbm25)
    as (w' & Hrun & _ & Hheap).
  exists w'. split; [done|].
  assert (∀ m n (r : SearchResult S),
            metadata (Nat.iter n (divided m) r) = metadata r
            ∧ payload (Nat.iter n (divided m) r) = payload r) as Hiter.
  { intros m n r. induction n as [|n IH]; [done|]. by rewrite Nat.iter_succ. }
  split.
  - intros l. rewrite Hheap. destruct (max_score_of h1 docs) as [m|]; [|done].
    destruct (s_gt m s_zero); [apply Hiter|done].
  - intros l Hl. rewrite Hheap.
    destruct (max_score_of h1 docs) as [m|]; [|done].
    destruct (s_gt m s_zero); [|done].
    rewrite (proj1 (count_occ_not_In Nat.eq_dec docs l)); [done|].
    by rewrite <-list_elem_of_In.
Qed.

(** X13. The normalisation of keyword mode works on objects, not on list
    positions: with a positive maximum, the score of an object ends as its
    raw score divided by the maximum once for each time the object occurs
    in the result list. *)
Theorem keyword_search_divides_per_occurrence (request : SearchRequest)
    (w : World S) (docs : list loc) (h1 : Heap S) (max_score : S) :
  bm25_search C (query request) MASTER_INDEX (top_k request) (heap w)
    = (Return docs, h1) →
  max_score_of h1 docs = Some max_score →
  s_gt max_score s_zero = true →
  ∃ w', keyword_search MASTER_INDEX C request w
        = (Return {| results := docs |}, w')
    ∧ ∀ l, score (heap w' l)
           = Nat.iter (count_occ Nat.eq_dec docs l)
               (λ s, s_div s max_score) (score (h1 l)).
Proof.
  intros Hbm25 Hmax Hpos.
  destruct (keyword_search_run MASTER_INDEX C request w docs h1 Hbm25)
    as (w' & Hrun & _ & Hheap).
  exists w'. split; [done|]. intros l. rewrite Hheap, Hmax, Hpos.
  induction (count_occ Nat.eq_dec docs l) as [|n IH]; [done|].
  rewrite !Nat.iter_succ. simpl. by rewrite IH.
Qed.

(** X14. Vector, engine-native hybrid and reranked-hybrid mode write no
    object: with collaborators that leave the heap as they find it, the
    heap after the mode is the heap before it, whether the mode returns
    or raises. *)
Theorem read_only_modes (mode : Mode) (request : SearchRequest) (w : World S) :
  mode ≠ KeywordMode →
  heap_preserving C →
  heap (run_mode MASTER_INDEX C mode request w).2 = heap w.
Proof.
  intros Hmode (Hembed & Hsim & Hbm25 & Hhybrid & Hrerank).
  destruct mode; [|done|..]; simpl;
    unfold vector_search, hybrid_search_native, hybrid_search_reranked,
      try_except, bind, call, ret, raise, get_heap.
  - pose proof (Hembed (query request) (heap w)) as He.
    destruct (embed_query C (query request) (heap w)) as [[qv|e] h1];
      simpl in He; subst h1; [|done].
    cbn [heap calls].
    pose proof (Hsim qv MASTER_INDEX (top_k request) (heap w)) as Hs.
    by destruct (similarity_search C qv MASTER_INDEX (top_k request) (heap w))
      as [[docs|e] h2]; simpl in Hs; subst h2.
  - pose proof (Hembed (query request) (heap w)) as He.
    destruct (embed_query C (query request) (heap w)) as [[qv|e] h1];
      simpl in He; subst h1; [|done].
    cbn [heap calls].
    pose proof (Hhybrid (query request) qv MASTER_INDEX
                  "hybrid-search-pipeline" (top_k request) (heap w)) as Hh.
    by destruct (hybrid_search_with_pipeline C (query request) qv MASTER_INDEX
                   "hybrid-search-pipeline" (top_k request) (heap w))
      as [[docs|e] h2]; simpl in Hh; subst h2.
  - pose proof (Hembed (query request) (heap w)) as He.
    destruct (embed_query C (query request) (heap w)) as [[qv|e] h1];
      simpl in He; subst h1; [|done].
    cbn [heap calls].
    pose proof (Hsim qv MASTER_INDEX (expanded_k (top_k request)) (heap w))
      as Hs.
    destruct (similarity_search C qv MASTER_INDEX (expanded_k (top_k request))
                (heap w)) as [[vs|e] h2]; simpl in Hs; subst h2; [|done].
    cbn [heap calls].
    pose proof (Hbm25 (query request) MASTER_INDEX
                  (expanded_k (top_k request)) (heap w)) as Hb.
    destruct (bm25_search C (query request) MASTER_INDEX
                (expanded_k (top_k request)) (heap w))
      as [[bs|e] h3]; simpl in Hb; subst h3; [|done].
    cbn [heap calls].
    destruct (combine_docs (heap w) vs bs) as [|d ds]; [done|].
    cbn [heap calls].
    pose proof (Hrerank (query request) (d :: ds) (top_k request) (heap w))
      as Hr.
    by destruct (rerank_results C (query request) (d :: ds) (top_k request)
                   (heap w)) as [[out|e] h4]; simpl in Hr; subst h4.
Qed.
End Writes.

(** ** The upload router *)

Lemma handle_upload_errors_raises {R} (result : Outcome PyExc R)
    (status : Z) (detail : string) :
  handle_upload_errors result = Raise (HTTPException status detail) →
  ∃ e, result = Raise e ∧ detail = exc_str e
    ∧ (status = 400 ∧ exc_class e = IsValueError
       ∨ status = 500 ∧ exc_class e = IsException).
Proof.
  destruct result as [r|e]; simpl; [done|].
  destruct (exc_class e) eqn:Hclass; intros [= <- <-]; eauto 10.
Qed.

Lemma handle_upload_errors_returns {R} (result : Outcome PyExc R) (r : R) :
  handle_upload_errors result = Return r ↔ result = Return r.
Proof.
  destruct result as [r'|e]; simpl.
  - split; by intros [= ->].
  - by destruct (exc_class e).
Qed.

Lemma handle_upload_errors_uncaught {R} (result : Outcome PyExc R) (e : PyExc) :
  handle_upload_errors result = Raise (Uncaught e)
  ↔ result = Raise e ∧ exc_class e = IsBaseException.
Proof.
  destruct result as [r|e']; simpl.
  - split; [done|]. by intros [? _].
  - destruct (exc_class e') eqn:Hclass; split;
      try (intros [[= ->] ?]; congruence); try done.
    by intros [= ->].
Qed.

(** X15. Both upload endpoints answer with the result of the document
    service exactly when the service returns one.  An [HTTPException]
    they raise comes from an exception of the service, carries its text
    as detail, and has status 400 when that exception is a [ValueError]
    and status 500 when it is another [Exception]: no other status is
    produced.  Only a [BaseException] that is no [Exception] leaves an
    endpoint unchanged. *)
Theorem upload_endpoints_statuses {UploadFile UploadResponse MultiUploadResponse}
    (process_upload : UploadFile → string → Outcome PyExc UploadResponse)
    (process_multiple_uploads :
       list UploadFile → string → Outcome PyExc MultiUploadResponse)
    (index_name : string) (file : UploadFile) (files : list UploadFile) :
  ((∀ r, upload_document process_upload index_name file = Return r
         ↔ process_upload file index_name = Return r)
   ∧ (∀ status detail,
        upload_document process_upload index_name file
          = Raise (HTTPException status detail) →
        ∃ e, process_upload file index_name = Raise e ∧ detail = exc_str e
          ∧ (status = 400 ∧ exc_class e = IsValueError
             ∨ status = 500 ∧ exc_class e = IsException))
   ∧ (∀ e, upload_document process_upload index_name file = Raise (Uncaught e)
           ↔ process_upload file index_name = Raise e
             ∧ exc_class e = IsBaseException))
  ∧ ((∀ r, upload_multiple_documents process_multiple_uploads index_name files
           = Return r
           ↔ process_multiple_uploads files index_name = Return r)
     ∧ (∀ status detail,
          upload_multiple_documents process_multiple_uploads index_name files
            = Raise (HTTPException status detail) →
          ∃ e, process_multiple_uploads files index_name = Raise e
            ∧ detail = exc_str e
            ∧ (status = 400 ∧ exc_class e = IsValueError
               ∨ status = 500 ∧ exc_class e = IsException))
     ∧ (∀ e, upload_multiple_documents process_multiple_uploads index_name
               files = Raise (Uncaught e)
             ↔ process_multiple_uploads files index_name = Raise e
               ∧ exc_class e = IsBaseException)).
Proof.
  unfold upload_document, upload_multiple_documents.
  split; (split; [|split]); intros;
    first [apply handle_upload_errors_returns
          |by apply handle_upload_errors_raises
          |apply handle_upload_errors_uncaught].
Qed.

(** The sample service: a result, a 400 and a 500. *)
Example upload_document_sample :
  upload_document sample_process_upload "docs" "a.pdf" = Return "a.pdf"
  ∧ upload_document sample_process_upload "docs" ""
    = Raise (HTTPException 400 "empty file name")
  ∧ upload_document sample_process_upload "down" "a.pdf"
    = Raise (HTTPException 500 "index unavailable").
Proof. vm_compute. done. Qed.

(** ** Instances of the further properties *)

Lemma combine_docs_vector_prefix_witness :
  ∃ kept,
    combine_docs alpha_heap [0; 1]%nat [2; 3]%nat = [0; 1]%nat ++ kept
    ∧ kept `sublist_of` [2; 3]%nat
    ∧ (∀ b, b ∈ kept →
         identity (alpha_heap b) ∉ identities_of alpha_heap [0; 1]%nat)
    ∧ ([2; 3]%nat = [] → kept = []).
Proof.
  apply (combine_docs_vector_prefix alpha_heap [0; 1]%nat [2; 3]%nat).
  unfold unique_identities. vm_compute. repeat constructor; set_solver.
Defined.

Lemma reranked_skips_reranker_iff_empty_witness :
  calls (hybrid_search_reranked "master" alpha_collaborators alpha_request
           (world_of alpha_heap)).2
  = calls (world_of alpha_heap) ++
      [EmbedQuery (query alpha_request);
       SimilaritySearch [0.5%float] "master" (expanded_k (top_k alpha_request));
       Bm25Search (query alpha_request) "master"
         (expanded_k (top_k alpha_request))]
      ++ [RerankResults (query alpha_request)
            (combine_docs alpha_heap [0; 1]%nat [2; 3]%nat)
            (top_k alpha_request)].
Proof.
  apply (reranked_skips_reranker_iff_empty "master" alpha_collaborators
           alpha_request (world_of alpha_heap) [0.5%float] [0; 1]%nat
           [2; 3]%nat alpha_heap alpha_heap alpha_heap); reflexivity.
Defined.

Lemma embedding_failure_stops_mode_witness :
  run_mode "master" no_embedding RerankedHybridMode alpha_request
    (world_of alpha_heap)
  = (Raise "EmbeddingError",
     {| heap := alpha_heap;
        calls := calls (world_of alpha_heap)
                 ++ [EmbedQuery (query alpha_request)] |}).
Proof.
  apply (embedding_failure_stops_mode "master" no_embedding RerankedHybridMode
           alpha_request (world_of alpha_heap) "EmbeddingError" alpha_heap).
  - discriminate.
  - reflexivity.
Defined.

Lemma search_failure_propagates_witness :
  hybrid_search_reranked "master" no_bm25 alpha_request (world_of alpha_heap)
  = (Raise "SearchError",
     {| heap := alpha_heap;
        calls := calls (world_of alpha_heap) ++
          [EmbedQuery (query alpha_request);
           SimilaritySearch [0.5%float] "master"
             (expanded_k (top_k alpha_request));
           Bm25Search (query alpha_request) "master"
             (expanded_k (top_k alpha_request))] |}).
Proof.
  apply (proj2 (proj2 (search_failure_propagates "master" no_bm25 alpha_request
                         (world_of alpha_heap) [0.5%float] alpha_heap
                         eq_refl))
           [0; 1]%nat "SearchError" alpha_heap alpha_heap); reflexivity.
Defined.

Lemma vector_search_verbatim_witness :
  vector_search "master" alpha_collaborators alpha_request (world_of alpha_heap)
  = (Return {| results := [0; 1]%nat |},
     {| heap := alpha_heap;
        calls := calls (world_of alpha_heap) ++
          [EmbedQuery (query alpha_request);
           SimilaritySearch [0.5%float] "master" (top_k alpha_request)] |}).
Proof.
  apply (vector_search_verbatim "master" alpha_collaborators alpha_request
           (world_of alpha_heap) [0.5%float] [0; 1]%nat alpha_heap alpha_heap);
    reflexivity.
Defined.

Lemma native_hybrid_verbatim_witness :
  hybrid_search_native "master" no_bm25 alpha_request (world_of alpha_heap)
  = (Return {| results := [0; 3]%nat |},
     {| heap := alpha_heap;
        calls := calls (world_of alpha_heap) ++
          [EmbedQuery (query alpha_request);
           HybridSearchWithPipeline (query alpha_request) [0.5%float] "master"
             "hybrid-search-pipeline" (top_k alpha_request)] |}).
Proof.
  apply (native_hybrid_verbatim "master" no_bm25 alpha_request
           (world_of alpha_heap) [0.5%float] [0; 3]%nat alpha_heap alpha_heap);
    reflexivity.
Defined.

Lemma keyword_search_writes_scores_only_witness :
  ∃ w', keyword_search "master" (bm25_only [0; 1]%nat) keyword_request
          (world_of keyword_heap)
        = (Return {| results := [0; 1]%nat |}, w')
    ∧ (∀ l, metadata (heap w' l) = metadata (keyword_heap l)
            ∧ payload (heap w' l) = payload (keyword_heap l))
    ∧ (∀ l, l ∉ [0; 1]%nat → heap w' l = keyword_heap l).
Proof.
  apply (keyword_search_writes_scores_only "master" (bm25_only [0; 1]%nat)
           keyword_request (world_of keyword_heap) [0; 1]%nat keyword_heap).
  reflexivity.
Defined.

(** Object 0 is listed twice and object 1 once. *)
Lemma keyword_search_divides_per_occurrence_witness :
  ∃ w', keyword_search "master" (bm25_only [0; 1; 0]%nat) keyword_request
          (world_of keyword_heap)
        = (Return {| results := [0; 1; 0]%nat |}, w')
    ∧ ∀ l, score (heap w' l)
           = Nat.iter (count_occ Nat.eq_dec [0; 1; 0]%nat l)
               (λ s, s_div s 12%float) (score (keyword_heap l)).
Proof.
  apply (keyword_search_divides_per_occurrence "master"
           (bm25_only [0; 1; 0]%nat) keyword_request (world_of keyword_heap)
           [0; 1; 0]%nat keyword_heap 12%float); reflexivity.
Defined.

Example keyword_listed_twice :
  scores_of
    (heap (keyword_search "master" (bm25_only [0; 1; 0]%nat) keyword_request
             (world_of keyword_heap)).2)
    [0; 1]%nat
  = [12 / 12 / 12; 6 / 12]%float.
Proof. vm_compute. reflexivity. Qed.

Lemma fixed_heap_preserving {S} (query_vec : list S) (vs bs : list loc)
    (hybrid : Outcome string (list loc)) :
  heap_preserving (fixed query_vec vs bs hybrid).
Proof. by repeat split. Qed.

Lemma read_only_modes_witness :
  heap (run_mode "master" alpha_collaborators RerankedHybridMode alpha_request
          (world_of alpha_heap)).2
  = heap (world_of alpha_heap).
Proof.
  apply (read_only_modes "master" alpha_collaborators RerankedHybridMode
           alpha_request (world_of alpha_heap)).
  - discriminate.
  - apply fixed_heap_preserving.
Defined.
